(** * JsonTranslator of the ESP8266WiFiMesh library

    A shallow embedding of
    [libraries/ESP8266WiFiMesh/src/JsonTranslator.cpp] and the properties of
    its message composers, field locators, typed getters and HMAC
    verification.

    Strings are lists of characters, indices are the C++ [int32_t] and
    [unsigned int] values carried in [Z] with their conversions written out,
    and a getter that writes through a reference parameter is a function from
    the old contents of that parameter to the returned flag and the new
    contents. *)

From Stdlib Require Import ZArith List Ascii String Bool Lia.
From Stdlib Require Import DecimalString DecimalN.
Import ListNotations.
Local Open Scope Z_scope.


(** * Machine integers *)

Module MachineInt.

(** Conversion to [unsigned int] / [uint32_t] (32 bits on the ESP8266). *)
Definition to_uint (z : Z) : Z := z mod 2 ^ 32.

(** Conversion to [int] / [int32_t]: two's complement wrap-around. *)
Definition to_int32 (z : Z) : Z := (z + 2 ^ 31) mod 2 ^ 32 - 2 ^ 31.

(** Conversion to [uint16_t]. *)
Definition to_uint16 (z : Z) : Z := z mod 2 ^ 16.

Definition INT32_MAX : Z := 2 ^ 31 - 1.
Definition ULONG_MAX : Z := 2 ^ 32 - 1.

Definition add32 (a b : Z) : Z := to_int32 (a + b).
Definition sub32 (a b : Z) : Z := to_int32 (a - b).

End MachineInt.
Import MachineInt.

(** * The Arduino [String] class *)

Module WString.

(** Modelled from the spec: the [String] class of the core (WString) is not
    under src/. A [String] is its character buffer; the buffer is a C string,
    so it holds no NUL character. *)
Definition String : Type := list ascii.

(** Modelled from the spec: [String::length()]. *)
Definition len (s : String) : Z := Z.of_nat (List.length s).

(** Strings whose indices all fit the [int32_t] variables of the translator.
    (The class itself stores lengths in 16 bits.) *)
Definition fits (s : String) : Prop := len s < INT32_MAX.

Definition eqb_ascii (a b : ascii) : bool := Ascii.eqb a b.
Arguments eqb_ascii : simpl never.

(** Modelled from the spec: [String::operator==], the header "equals" the
    constant. *)
Fixpoint equals (s t : String) : bool :=
  match s, t with
  | [], [] => true
  | a :: s', b :: t' => eqb_ascii a b && equals s' t'
  | _, _ => false
  end.

(** Is [needle] a prefix of [hay] ? *)
Fixpoint startsWith (needle hay : list ascii) : bool :=
  match needle, hay with
  | [], _ => true
  | _ :: _, [] => false
  | a :: n', b :: h' => eqb_ascii a b && startsWith n' h'
  end.

(** [strchr]: offset of the first [ch] in the buffer. *)
Fixpoint strchr (s : list ascii) (ch : ascii) : option nat :=
  match s with
  | [] => None
  | c :: s' => if eqb_ascii c ch then Some O else option_map S (strchr s' ch)
  end.

(** [strstr]: offset of the first occurrence of [needle] in the buffer. *)
Fixpoint strstr (hay needle : list ascii) : option nat :=
  match hay with
  | [] => match needle with [] => Some O | _ :: _ => None end
  | _ :: hay' =>
      if startsWith needle hay then Some O
      else option_map S (strstr hay' needle)
  end.

(** Modelled from the spec:
    [int String::indexOf(char ch, unsigned int fromIndex) const], the forward
    scan for the next delimiter; -1 is NotFound, also for a start at or past
    the end of the buffer. *)
Definition indexOf_char (s : String) (ch : ascii) (fromIndex : Z) : Z :=
  let fromIndex := to_uint fromIndex in
  if len s <=? fromIndex then -1
  else match strchr (skipn (Z.to_nat fromIndex) s) ch with
       | None => -1
       | Some k => to_int32 (fromIndex + Z.of_nat k)
       end.

(** Modelled from the spec:
    [int String::indexOf(const String &s2, unsigned int fromIndex) const],
    which locates the field name starting at [fromIndex]; -1 is NotFound. *)
Definition indexOf (s s2 : String) (fromIndex : Z) : Z :=
  let fromIndex := to_uint fromIndex in
  if len s <=? fromIndex then -1
  else match strstr (skipn (Z.to_nat fromIndex) s) s2 with
       | None => -1
       | Some k => to_int32 (fromIndex + Z.of_nat k)
       end.

(** Modelled from the spec:
    [String String::substring(unsigned int left, unsigned int right) const],
    the bounded substring the getters convert. The bounds are exchanged when
    [left > right], and [right] is clipped to the length. *)
Definition substring (s : String) (left_ right_ : Z) : String :=
  let l := to_uint left_ in
  let r := to_uint right_ in
  let lo := if r <? l then r else l in
  let hi := if r <? l then l else r in
  if len s <=? lo then []
  else
    let hi := if len s <? hi then len s else hi in
    firstn (Z.to_nat (hi - lo)) (skipn (Z.to_nat lo) s).

(** Modelled from the spec:
    [String String::substring(unsigned int beginIndex) const], from the value
    start to the end of the buffer. *)
Definition substring_from (s : String) (beginIndex : Z) : String :=
  substring s beginIndex (len s).

End WString.
Import WString.

(** * The C library's [strtoul] *)

Module Libc.

Definition code (c : ascii) : Z := Z.of_N (N_of_ascii c).

Definition isspace (c : ascii) : bool :=
  (code c =? 32) || ((9 <=? code c) && (code c <=? 13)).

(** Value of a character as a digit of some base up to 36. *)
Definition digit_value (c : ascii) : option Z :=
  let n := code c in
  if (48 <=? n) && (n <=? 57) then Some (n - 48)
  else if (65 <=? n) && (n <=? 90) then Some (n - 55)
  else if (97 <=? n) && (n <=? 122) then Some (n - 87)
  else None.

Fixpoint skip_spaces (s : list ascii) : list ascii :=
  match s with
  | c :: s' => if isspace c then skip_spaces s' else s
  | [] => []
  end.

(** The digit loop: stops at the first character that is not a digit of
    [base]; once the value leaves [unsigned long] the overflow flag stays
    set and the remaining digits are consumed without effect. *)
Fixpoint accumulate (base : Z) (s : list ascii) (acc : Z) (overflow : bool)
  : Z * bool :=
  match s with
  | [] => (acc, overflow)
  | c :: s' =>
      match digit_value c with
      | None => (acc, overflow)
      | Some d =>
          if base <=? d then (acc, overflow)
          else if overflow || (ULONG_MAX <? acc * base + d)
               then accumulate base s' acc true
               else accumulate base s' (acc * base + d) false
      end
  end.

(** [strtoul(s, nullptr, 0)]: white space, an optional sign, then with base 0
    a [0x]/[0X] prefix selects base 16, a leading [0] base 8, anything else
    base 10. The result saturates at [ULONG_MAX] and is negated modulo
    [2^32] after a minus sign. *)
Definition strtoul (s : list ascii) : Z :=
  let s1 := skip_spaces s in
  let '(neg, s2) :=
    match s1 with
    | c :: r => if eqb_ascii c "-" then (true, r)
                else if eqb_ascii c "+" then (false, r)
                else (false, s1)
    | [] => (false, s1)
    end in
  let '(base, s3) :=
    match s2 with
    | c0 :: c1 :: r =>
        if eqb_ascii c0 "0" && (eqb_ascii c1 "x" || eqb_ascii c1 "X")
        then (16, r)
        else if eqb_ascii c0 "0" then (8, s2) else (10, s2)
    | [c0] => if eqb_ascii c0 "0" then (8, s2) else (10, s2)
    | [] => (10, s2)
    end in
  let '(acc, overflow) := accumulate base s3 0 false in
  if overflow then ULONG_MAX
  else if neg then to_uint (- acc) else acc.

(** The reading of the specification, for comparison with [strtoul]: read
    the leading decimal digits, stop at the first character that is not
    one. *)
Definition isdigit (c : ascii) : bool := (48 <=? code c) && (code c <=? 57).

Fixpoint leadingDigits (s : list ascii) (acc : Z) : Z :=
  match s with
  | c :: s' => if isdigit c then leadingDigits s' (acc * 10 + (code c - 48))
               else acc
  | [] => acc
  end.

Definition parseLeadingDigits (s : list ascii) : Z := leadingDigits s 0.

End Libc.
Import Libc.

(** * Constants of the translator *)

(** The double-quote character. *)
Definition dq : ascii := "034"%char.

(** Modelled from the spec: [String(unsigned long value)] with the default
    base 10, the base-10 decimal text form of a duration. *)
Definition String_of_ulong (value : Z) : String :=
  list_ascii_of_string (NilEmpty.string_of_uint (N.to_uint (Z.to_N value))).

(** Modelled from the spec: the field identifier constants are declared in
    JsonTranslator.h, which is not under src/. The specification names the
    wire strings, and [createJsonPair] together with the message shown in the
    comment of [createEncryptedConnectionInfo] fixes their shape: the quoted
    name followed by a colon. *)
Definition fieldIdentifier (name : string) : String :=
  dq :: list_ascii_of_string name ++ [dq; ":"%char].

Definition jsonConnectionState : String := Eval cbv in fieldIdentifier "connectionState".
Definition jsonPassword : String := Eval cbv in fieldIdentifier "password".
Definition jsonOwnSessionKey : String := Eval cbv in fieldIdentifier "ownSK".
Definition jsonPeerSessionKey : String := Eval cbv in fieldIdentifier "peerSK".
Definition jsonPeerStaMac : String := Eval cbv in fieldIdentifier "peerStaMac".
Definition jsonPeerApMac : String := Eval cbv in fieldIdentifier "peerApMac".
Definition jsonDuration : String := Eval cbv in fieldIdentifier "duration".
Definition jsonNonce : String := Eval cbv in fieldIdentifier "nonce".
Definition jsonHmac : String := Eval cbv in fieldIdentifier "hmac".
Definition jsonDesync : String := Eval cbv in fieldIdentifier "desync".
Definition jsonUnsynchronizedMessageID : String :=
  Eval cbv in fieldIdentifier "unsynchronizedMessageID".
Definition jsonMeshMessageCount : String :=
  Eval cbv in fieldIdentifier "meshMessageCount".

(** [F("{\"arguments\":{")]. *)
Definition argumentsOpening : String :=
  Eval cbv in "{"%char :: dq :: list_ascii_of_string "arguments" ++ [dq; ":"; "{"]%char.

(** What a call leaves behind: a returned flag with the contents of the
    reference parameter, or the abort of a failed [assert]. *)
Inductive outcome (A : Type) : Type :=
| Returns (ok : bool) (result : A)
| AssertionFailure.
Arguments Returns {A} ok result.
Arguments AssertionFailure {A}.

(** * The translator *)

Section JsonTranslator.

(** ** Collaborators declared outside JsonTranslator.cpp *)

(** [TypeCast::uint64ToString] and [TypeCast::stringToUint64]. *)
Variable uint64ToString : Z -> String.
Variable stringToUint64 : String -> Z.

(** [TypeCast::macToString]; [TypeCast::stringToMac] writes into the array
    it is given: it maps the string and the old contents to the new ones. *)
Variable macToString : list Byte.byte -> String.
Variable stringToMac : String -> list Byte.byte -> list Byte.byte.

(** [MeshCryptoInterface::createMeshHmac] and [verifyMeshHmac], over a key
    and its length. *)
Variable createMeshHmac : String -> list Byte.byte -> Z -> String.
Variable verifyMeshHmac : String -> String -> list Byte.byte -> Z -> bool.

(** [CryptoInterface::SHA256_NATURAL_LENGTH]. *)
Variable SHA256_NATURAL_LENGTH : Z.

(** [EspnowProtocolInterpreter::temporaryEncryptionRequestHeader]. *)
Variable temporaryEncryptionRequestHeader : String.

(** The addresses [WiFi.macAddress] and [WiFi.softAPmacAddress] deliver. *)
Variable localStaMac localApMac : list Byte.byte.

(** ** Pair encoder *)

Definition createJsonPair (valueIdentifier value : String) : String :=
  valueIdentifier ++ dq :: value ++ [dq; ","%char].

Definition createJsonEndPair (valueIdentifier value : String) : String :=
  valueIdentifier ++ dq :: value ++ [dq; "}"; "}"]%char.

(** ** Composers *)

Definition createEncryptedConnectionInfo
  (infoHeader requestNonce authenticationPassword : String)
  (ownSessionKey peerSessionKey : Z) : String :=
  infoHeader ++ argumentsOpening
  ++ createJsonPair jsonNonce requestNonce
  ++ createJsonPair jsonPassword authenticationPassword
  ++ createJsonPair jsonOwnSessionKey (uint64ToString peerSessionKey)
  ++ createJsonEndPair jsonPeerSessionKey (uint64ToString ownSessionKey).

Definition createEncryptionRequestIntro (requestHeader : String) (duration : Z)
  : String :=
  requestHeader ++ argumentsOpening
  ++ (if equals requestHeader temporaryEncryptionRequestHeader
      then createJsonPair jsonDuration (String_of_ulong duration)
      else []).

Definition createEncryptionRequestEnding (requestNonce : String) : String :=
  createJsonEndPair jsonNonce requestNonce.

Definition createEncryptionRequestHmacMessage
  (requestHeader requestNonce : String) (hashKey : list Byte.byte)
  (hashKeyLength : Z) (duration : Z) : String :=
  let mainMessage :=
    createEncryptionRequestIntro requestHeader duration
    ++ createJsonPair jsonNonce requestNonce in
  let requesterStaApMac := macToString localStaMac ++ macToString localApMac in
  let hmac := createMeshHmac (requesterStaApMac ++ mainMessage) hashKey hashKeyLength in
  mainMessage ++ createJsonEndPair jsonHmac hmac.

(** ** Field locator *)

Definition getStartIndex (jsonString valueIdentifier : String)
  (searchStartIndex : Z) : Z :=
  let startIndex := indexOf jsonString valueIdentifier searchStartIndex in
  if startIndex <? 0 then startIndex
  else add32 startIndex (len valueIdentifier + 1).

Definition getEndIndex (jsonString : String) (searchStartIndex : Z) : Z :=
  let endIndex := indexOf_char jsonString ","%char searchStartIndex in
  let endIndex :=
    if endIndex <? 0 then indexOf_char jsonString "}"%char searchStartIndex
    else endIndex in
  sub32 endIndex 1.

(** ** Typed getters *)

Definition getConnectionState (jsonString result : String) : bool * String :=
  let startIndex := indexOf jsonString jsonConnectionState 0 in
  if startIndex <? 0 then (false, result)
  else
    let endIndex := indexOf_char jsonString "}"%char 0 in
    if endIndex <? 0 then (false, result)
    else (true, substring jsonString startIndex (add32 endIndex 1)).

Definition getPassword (jsonString result : String) : bool * String :=
  let startIndex := getStartIndex jsonString jsonPassword 0 in
  if startIndex <? 0 then (false, result)
  else
    let endIndex := getEndIndex jsonString startIndex in
    if endIndex <? 0 then (false, result)
    else (true, substring jsonString startIndex endIndex).

Definition getOwnSessionKey (jsonString : String) (result : Z) : bool * Z :=
  let startIndex := getStartIndex jsonString jsonOwnSessionKey 0 in
  if startIndex <? 0 then (false, result)
  else
    let endIndex := getEndIndex jsonString startIndex in
    if endIndex <? 0 then (false, result)
    else (true, stringToUint64 (substring jsonString startIndex endIndex)).

Definition getPeerSessionKey (jsonString : String) (result : Z) : bool * Z :=
  let startIndex := getStartIndex jsonString jsonPeerSessionKey 0 in
  if startIndex <? 0 then (false, result)
  else
    let endIndex := getEndIndex jsonString startIndex in
    if endIndex <? 0 then (false, result)
    else (true, stringToUint64 (substring jsonString startIndex endIndex)).

Definition getPeerStaMac (jsonString : String) (resultArray : list Byte.byte)
  : bool * list Byte.byte :=
  let startIndex := getStartIndex jsonString jsonPeerStaMac 0 in
  if startIndex <? 0 then (false, resultArray)
  else
    let endIndex := getEndIndex jsonString startIndex in
    if (endIndex <? 0) || negb (sub32 endIndex startIndex =? 12)
    then (false, resultArray)
    else (true, stringToMac (substring jsonString startIndex endIndex) resultArray).

Definition getPeerApMac (jsonString : String) (resultArray : list Byte.byte)
  : bool * list Byte.byte :=
  let startIndex := getStartIndex jsonString jsonPeerApMac 0 in
  if startIndex <? 0 then (false, resultArray)
  else
    let endIndex := getEndIndex jsonString startIndex in
    if (endIndex <? 0) || negb (sub32 endIndex startIndex =? 12)
    then (false, resultArray)
    else (true, stringToMac (substring jsonString startIndex endIndex) resultArray).

Definition getDuration (jsonString : String) (result : Z) : bool * Z :=
  let startIndex := getStartIndex jsonString jsonDuration 0 in
  if startIndex <? 0 then (false, result)
  else (true, strtoul (substring_from jsonString startIndex)).

Definition getNonce (jsonString result : String) : bool * String :=
  let startIndex := getStartIndex jsonString jsonNonce 0 in
  if startIndex <? 0 then (false, result)
  else
    let endIndex := getEndIndex jsonString startIndex in
    if endIndex <? 0 then (false, result)
    else (true, substring jsonString startIndex endIndex).

Definition getHmac (jsonString result : String) : bool * String :=
  let startIndex := getStartIndex jsonString jsonHmac 0 in
  if startIndex <? 0 then (false, result)
  else
    let endIndex := getEndIndex jsonString startIndex in
    if endIndex <? 0 then (false, result)
    else (true, substring jsonString startIndex endIndex).

Definition getDesync (jsonString : String) (result : bool) : bool * bool :=
  let startIndex := getStartIndex jsonString jsonDesync 0 in
  if startIndex <? 0 then (false, result)
  else (true, negb (strtoul (substring_from jsonString startIndex) =? 0)).

Definition getUnsynchronizedMessageID (jsonString : String) (result : Z) : bool * Z :=
  let startIndex := getStartIndex jsonString jsonUnsynchronizedMessageID 0 in
  if startIndex <? 0 then (false, result)
  else (true, strtoul (substring_from jsonString startIndex)).

(** [assert] is in force (no NDEBUG): a false condition aborts the call. *)
Definition getMeshMessageCount (jsonString : String) (result : Z) : outcome Z :=
  let startIndex := getStartIndex jsonString jsonMeshMessageCount 0 in
  if startIndex <? 0 then Returns false result
  else
    let longResult := strtoul (substring_from jsonString startIndex) in
    if longResult <=? 65535 then Returns true (to_uint16 longResult)
    else AssertionFailure.

(** ** HMAC verification *)

Definition verifyEncryptionRequestHmac (encryptionRequestHmacMessage : String)
  (requesterStaMac requesterApMac hashKey : list Byte.byte) (hashKeyLength : Z)
  : bool :=
  let '(found, hmac) := getHmac encryptionRequestHmacMessage [] in
  if found then
    let hmacStartIndex := indexOf encryptionRequestHmacMessage jsonHmac 0 in
    if hmacStartIndex <? 0 then false
    else
      (len hmac =? 2 * SHA256_NATURAL_LENGTH)
      && verifyMeshHmac
           (macToString requesterStaMac ++ macToString requesterApMac
            ++ substring encryptionRequestHmacMessage 0 hmacStartIndex)
           hmac hashKey hashKeyLength
  else false.

End JsonTranslator.

(** * Reference collaborators

    Simple instances of the collaborator interfaces, to run the translator on
    concrete messages. *)

Module Sample.

(** Modelled from the spec: TypeConversionFunctions is not under src/; the
    specification has the 64-bit keys travel as decimal strings. *)
Definition uint64ToString (number : Z) : String :=
  list_ascii_of_string (NilEmpty.string_of_uint (N.to_uint (Z.to_N number))).

Definition stringToUint64 (s : String) : Z :=
  match NilEmpty.uint_of_string (string_of_list_ascii s) with
  | Some d => Z.of_N (N.of_uint d) mod 2 ^ 64
  | None => 0
  end.

Definition hexDigit (n : nat) : ascii :=
  nth n (list_ascii_of_string "0123456789ABCDEF") "0"%char.

Definition byteToHex (b : Byte.byte) : String :=
  let n := N.to_nat (Byte.to_N b) in
  [hexDigit (n / 16); hexDigit (n mod 16)].

(** Modelled from the spec: a hardware address is 12 hexadecimal characters
    on the wire. *)
Definition macToString (mac : list Byte.byte) : String := flat_map byteToHex mac.

Fixpoint hexToBytes (s : list ascii) : list Byte.byte :=
  match s with
  | h :: l :: s' =>
      match digit_value h, digit_value l with
      | Some a, Some b =>
          match Byte.of_N (Z.to_N (16 * a + b)) with
          | Some x => x :: hexToBytes s'
          | None => Byte.x00 :: hexToBytes s'
          end
      | _, _ => Byte.x00 :: hexToBytes s'
      end
  | _ => []
  end.

Definition stringToMac (s : String) (macArray : list Byte.byte) : list Byte.byte :=
  hexToBytes s ++ skipn (List.length (hexToBytes s)) macArray.

(** A toy keyed checksum standing in for HMAC-SHA256: 64 hexadecimal
    characters, as many as the real tag has. *)
Definition checksum (message : String) (key : list Byte.byte) : Z :=
  fold_right (fun c acc => (code c + 3 * acc) mod 65536)
    (fold_right (fun b acc => (Z.of_N (Byte.to_N b) + acc) mod 65536) 0 key)
    message.

Definition createMeshHmac (message : String) (key : list Byte.byte) (keyLength : Z)
  : String :=
  map (fun i => hexDigit (Z.to_nat ((checksum message key + Z.of_nat i) mod 16)))
      (seq 0 64).

Definition verifyMeshHmac (message tag : String) (key : list Byte.byte)
  (keyLength : Z) : bool :=
  equals tag (createMeshHmac message key keyLength).

(** A tag maker that meets the length requirement with commas only. *)
Definition commaHmac (message : String) (key : list Byte.byte) (keyLength : Z)
  : String := repeat ","%char 64.

Definition verifyCommaHmac (message tag : String) (key : list Byte.byte)
  (keyLength : Z) : bool :=
  equals tag (commaHmac message key keyLength).

Definition SHA256_NATURAL_LENGTH : Z := 32.

Definition temporaryEncryptionRequestHeader : String :=
  list_ascii_of_string "AddTEC:".

Definition staMac : list Byte.byte :=
  [Byte.x5c; Byte.xcf; Byte.x7f; Byte.x01; Byte.x02; Byte.x03].
Definition apMac : list Byte.byte :=
  [Byte.x5e; Byte.xcf; Byte.x7f; Byte.x01; Byte.x02; Byte.x03].

End Sample.

(** * Occurrences *)

(** [pat] occurs in [s]. *)
Definition occurs (pat s : String) : Prop := exists l r, s = l ++ pat ++ r.

(** The first occurrence of [pat] in [s] starts at index [i]. *)
Definition first_occurrence (pat s : String) (i : nat) : Prop :=
  (exists l r, s = l ++ pat ++ r /\ List.length l = i)
  /\ forall l r, s = l ++ pat ++ r -> (i <= List.length l)%nat.

(** The character at index [i] of [s] is [c]. *)
Definition char_at (s : String) (i : Z) (c : ascii) : Prop :=
  0 <= i /\ nth_error s (Z.to_nat i) = Some c.

(** The first [c] at or after index [from] is at index [i]. *)
Definition first_char_from (c : ascii) (s : String) (from i : Z) : Prop :=
  from <= i /\ char_at s i c /\ forall j, from <= j < i -> ~ char_at s j c.

(** No [c] at or after index [from]. *)
Definition no_char_from (c : ascii) (s : String) (from : Z) : Prop :=
  forall j, from <= j -> ~ char_at s j c.

(** Wire text written with apostrophes for the double quotes. *)
Definition wire (s : string) : String :=
  map (fun c => if eqb_ascii c "'"%char then dq else c) (list_ascii_of_string s).

(** The value of a field whose identifier first occurs at index [i] starts
    one past the identifier and the quote that follows it. *)
Definition valueStart (id : String) (i : nat) : Z := Z.of_nat i + len id + 1.

(** Neither a comma nor a closing brace at or after index [from]. *)
Definition unterminated (msg : String) (from : Z) : Prop :=
  no_char_from ","%char msg from /\ no_char_from "}"%char msg from.

(** The span rule of an address getter [get] for the identifier [id]: with
    [s] the position the start locator returns and [e] the position the end
    locator returns from there, [get] succeeds exactly when both are found
    and [e - s = 12]; a failure leaves the array as it was, a success stores
    the conversion of the 12 characters between them. *)
Definition span_rule (stringToMac : String -> list Byte.byte -> list Byte.byte)
  (id : String) (get : String -> list Byte.byte -> bool * list Byte.byte)
  (msg : String) (resultArray : list Byte.byte) : Prop :=
  let s := getStartIndex msg id 0 in
  let e := getEndIndex msg s in
  (fst (get msg resultArray) = true <-> 0 <= s /\ 0 <= e /\ e - s = 12)
  /\ (fst (get msg resultArray) = false -> snd (get msg resultArray) = resultArray)
  /\ (fst (get msg resultArray) = true ->
      snd (get msg resultArray) = stringToMac (substring msg s e) resultArray
      /\ List.length (substring msg s e) = 12%nat)
  /\ (e - s <> 12 -> get msg resultArray = (false, resultArray)).

(** ** What the getters promise

    Each rule is stated for one message; [result] is what the reference
    parameter held before the call. *)

(** A getter that converts the text between the two locators: false and an
    untouched parameter when the identifier is absent or no delimiter follows
    the value start, otherwise true with the converted text. *)
Definition located_rule {A : Type} (id : String) (convert : String -> A)
  (get : String -> A -> bool * A) (msg : String) : Prop :=
  forall result,
    (~ occurs id msg -> get msg result = (false, result))
    /\ forall i, first_occurrence id msg i ->
         let s := valueStart id i in
         (unterminated msg s -> get msg result = (false, result))
         /\ (~ unterminated msg s ->
             get msg result = (true, convert (substring msg s (getEndIndex msg s)))).

(** An address getter: as above, and the span must be 12 characters. *)
Definition address_rule (stringToMac : String -> list Byte.byte -> list Byte.byte)
  (id : String) (get : String -> list Byte.byte -> bool * list Byte.byte)
  (msg : String) : Prop :=
  forall resultArray,
    (~ occurs id msg -> get msg resultArray = (false, resultArray))
    /\ forall i, first_occurrence id msg i ->
         let s := valueStart id i in
         let e := getEndIndex msg s in
         (unterminated msg s \/ e - s <> 12 ->
          get msg resultArray = (false, resultArray))
         /\ (~ unterminated msg s -> e - s = 12 ->
             get msg resultArray
             = (true, stringToMac (substring msg s e) resultArray)).

(** A numeric getter: false and an untouched parameter when the identifier
    is absent, otherwise true with the conversion of what [strtoul] reads
    from the value start to the end of the message. *)
Definition numeric_rule {A : Type} (id : String) (convert : Z -> A)
  (get : String -> A -> bool * A) (msg : String) : Prop :=
  forall result,
    (~ occurs id msg -> get msg result = (false, result))
    /\ forall i, first_occurrence id msg i ->
         get msg result
         = (true, convert (strtoul (skipn (Z.to_nat (valueStart id i)) msg))).

(** The counter getter: as a numeric getter while the value fits 16 bits,
    the abort of the assertion beyond. *)
Definition count_rule (msg : String) : Prop :=
  forall result,
    (~ occurs jsonMeshMessageCount msg ->
     getMeshMessageCount msg result = Returns false result)
    /\ forall i, first_occurrence jsonMeshMessageCount msg i ->
         let v := strtoul (skipn (Z.to_nat (valueStart jsonMeshMessageCount i)) msg) in
         (v <= 65535 -> getMeshMessageCount msg result = Returns true v)
         /\ (65535 < v -> getMeshMessageCount msg result = AssertionFailure).

(** The connection state getter: false and an untouched parameter when the
    identifier is absent or the message has no closing brace, otherwise true
    with the text between the identifier and the first closing brace. *)
Definition connectionState_rule (msg : String) : Prop :=
  forall result,
    (~ occurs jsonConnectionState msg \/ no_char_from "}"%char msg 0 ->
     getConnectionState msg result = (false, result))
    /\ forall i j, first_occurrence jsonConnectionState msg i ->
         first_char_from "}"%char msg 0 j ->
         getConnectionState msg result
         = (true, substring msg (Z.of_nat i) (j + 1)).

(** A value text on which [strtoul] with base 0 has nothing to skip and no
    prefix to interpret: it does not start with white space or a sign, and a
    leading [0] is followed by neither a digit nor [x]. *)
Definition plainDecimal (s : list ascii) : bool :=
  match s with
  | [] => true
  | c :: r =>
      negb (isspace c) && negb (eqb_ascii c "-") && negb (eqb_ascii c "+")
      && (negb (eqb_ascii c "0")
          || match r with
             | [] => true
             | c1 :: _ => negb (isdigit c1) && negb (eqb_ascii c1 "x")
                          && negb (eqb_ascii c1 "X")
             end)
  end.

(** No occurrence of [pat] in [a ++ rest] starts inside [a]. *)
Definition no_start_in (pat a rest : String) : Prop :=
  forall a1 a2, a = a1 ++ a2 -> a2 <> [] -> startsWith pat (a2 ++ rest) = false.

(** The first character of [rest], if any, is none of [name]. *)
Definition head_not_in (name rest : String) : bool :=
  match rest with
  | [] => true
  | c :: _ => negb (existsb (eqb_ascii c) name)
  end.

(** The bare field names of the two session keys and of the tag. *)
Definition ownSessionKeyName : String := Eval cbv in list_ascii_of_string "ownSK".
Definition peerSessionKeyName : String := Eval cbv in list_ascii_of_string "peerSK".
Definition hmacName : String := Eval cbv in list_ascii_of_string "hmac".

(** A text that holds neither session key name. *)
Definition noSessionKeyName (s : String) : Prop :=
  ~ occurs ownSessionKeyName s /\ ~ occurs peerSessionKeyName s.

(** A text without quote, comma or closing brace. *)
Definition plainValue (s : String) : Prop :=
  ~ In dq s /\ ~ In ","%char s /\ ~ In "}"%char s.

(** ** Occurrences from a search start *)

(** [pat] occurs in [s] at index [i]. *)
Definition occurs_at (pat s : String) (i : Z) : Prop :=
  exists l r, s = l ++ pat ++ r /\ len l = i.

(** The first occurrence of [pat] at or after index [from] is at index [i]. *)
Definition first_occurrence_from (pat s : String) (from i : Z) : Prop :=
  from <= i /\ occurs_at pat s i /\ forall j, from <= j < i -> ~ occurs_at pat s j.

(** No occurrence of [pat] at or after index [from]. *)
Definition no_occurrence_from (pat s : String) (from : Z) : Prop :=
  forall j, from <= j -> ~ occurs_at pat s j.

(** What a successful text getter for [id] has read in [msg]: the text [v]
    between the value start and the character [q] that precedes the first
    delimiter [d]; or, when the delimiter sits at the value start itself,
    nothing that lies after the value start. *)
Definition located_text (id msg v : String) : Prop :=
  exists i, first_occurrence id msg i
    /\ ((exists q d post,
           skipn (Z.to_nat (valueStart id i)) msg = v ++ q :: d :: post
           /\ ~ In ","%char (v ++ [q])
           /\ (d = ","%char
               \/ (d = "}"%char /\ ~ In "}"%char (v ++ [q])
                   /\ ~ In ","%char post)))
        \/ (exists d post,
              skipn (Z.to_nat (valueStart id i)) msg = d :: post
              /\ (d = ","%char \/ (d = "}"%char /\ ~ In ","%char post)))).

(** The bare field names of the nonce, the password and the duration. *)
Definition nonceName : String := Eval cbv in list_ascii_of_string "nonce".
Definition passwordName : String := Eval cbv in list_ascii_of_string "password".
Definition durationName : String := Eval cbv in list_ascii_of_string "duration".

(** A numeric field on the wire: the identifier, then the decimal rendering
    of [n] between quotes, in any surrounding text. *)
Definition numericField (id : String) (n : Z) (pre post : String) : String :=
  pre ++ id ++ dq :: String_of_ulong n ++ dq :: post.

(** ** Messages used in the examples *)

Definition addressMessage : String :=
  Eval cbv in wire "BasicCI:{'arguments':{'peerStaMac':'5CCF7F010203','peerApMac':'5ECF7F0102'}}".

Definition countMessage (digits : string) : String :=
  wire "{'arguments':{'meshMessageCount':'" ++ list_ascii_of_string digits
  ++ wire "'}}".

Definition stateMessage : String :=
  Eval cbv in wire "MeshState:{'connectionState':{'unsyncMsgID':'123'}}".

Definition braceFirstMessage : String :=
  Eval cbv in wire "}abc'connectionState':{'x':'1'}}".

Definition requestMessage : String :=
  Eval cbv in wire "AddTEC:{'arguments':{'duration':'5000','nonce':'1F2'}}".

Definition octalMessage : String :=
  Eval cbv in wire "{'arguments':{'duration':'010'}}".

Definition infoMessage : String :=
  Eval cbv in wire "EncryptedCI:{'arguments':{'nonce':'1F2','password':'abc','ownSK':'3B4','peerSK':'1A2'}}".

Definition sampleKey : list Byte.byte := [Byte.x01; Byte.x02; Byte.x03].

Definition signedMessage : String :=
  Eval vm_compute in
    createEncryptionRequestHmacMessage Sample.macToString Sample.createMeshHmac
      Sample.temporaryEncryptionRequestHeader Sample.staMac Sample.apMac
      (wire "AddTEC:") (wire "1F2") sampleKey 3 5000.

(** * Properties of the machine integers and of the [String] model *)

Lemma to_uint_small z : 0 <= z < 2 ^ 32 -> to_uint z = z.
Proof. intros H. unfold to_uint. now apply Z.mod_small. Qed.

Lemma to_int32_small z : - 2 ^ 31 <= z < 2 ^ 31 -> to_int32 z = z.
Proof. intros H. unfold to_int32. rewrite Z.mod_small; lia. Qed.

Lemma eqb_ascii_eq a b : eqb_ascii a b = true <-> a = b.
Proof. apply Ascii.eqb_eq. Qed.

Lemma eqb_ascii_neq a b : eqb_ascii a b = false <-> a <> b.
Proof. apply Ascii.eqb_neq. Qed.

Lemma eqb_ascii_refl a : eqb_ascii a a = true.
Proof. now apply eqb_ascii_eq. Qed.

Lemma equals_eq s : forall t, equals s t = true <-> s = t.
Proof.
  induction s as [|a s IH]; intros [|b t]; simpl; split; try easy.
  - intros H. apply andb_true_iff in H as [Hab Hst].
    apply eqb_ascii_eq in Hab. apply IH in Hst. now subst.
  - intros H. injection H as -> ->. rewrite eqb_ascii_refl. now apply IH.
Qed.

Lemma equals_neq s t : equals s t = false <-> s <> t.
Proof.
  split.
  - intros H E. apply equals_eq in E. congruence.
  - intros H. destruct (equals s t) eqn:E; [|easy].
    apply equals_eq in E. contradiction.
Qed.

Lemma startsWith_spec needle : forall hay,
  startsWith needle hay = true <-> exists r, hay = needle ++ r.
Proof.
  induction needle as [|a n IH]; intros hay; simpl.
  - split; [intros _; now exists hay | easy].
  - destruct hay as [|b h].
    + split; [easy | intros [r Hr]; discriminate].
    + split.
      * intros H. apply andb_true_iff in H as [Hab Hn].
        apply eqb_ascii_eq in Hab. apply IH in Hn as [r ->].
        exists r. now subst.
      * intros [r Hr]. injection Hr as -> ->.
        rewrite eqb_ascii_refl. apply IH. now exists r.
Qed.

Lemma startsWith_app needle r : startsWith needle (needle ++ r) = true.
Proof. apply startsWith_spec. now exists r. Qed.

(** [strchr] finds the first position holding the character. *)
Lemma strchr_Some s ch : forall k,
  strchr s ch = Some k ->
  nth_error s k = Some ch /\ forall j, (j < k)%nat -> nth_error s j <> Some ch.
Proof.
  induction s as [|c s IH]; intros k; simpl; [easy|].
  destruct (eqb_ascii c ch) eqn:E.
  - intros [= <-]. apply eqb_ascii_eq in E. subst. split; [easy | lia].
  - destruct (strchr s ch) as [k'|]; simpl; [|easy].
    intros [= <-]. destruct (IH k' eq_refl) as [H1 H2]. split; [easy|].
    intros [|j] Hj; simpl.
    + apply eqb_ascii_neq in E. congruence.
    + apply H2. lia.
Qed.

Lemma strchr_None s ch : strchr s ch = None -> forall j, nth_error s j <> Some ch.
Proof.
  induction s as [|c s IH]; simpl; intros H j.
  - now destruct j.
  - destruct (eqb_ascii c ch) eqn:E; [easy|].
    destruct (strchr s ch); [easy|].
    destruct j as [|j]; simpl.
    + apply eqb_ascii_neq in E. congruence.
    + now apply IH.
Qed.

Lemma strchr_first s ch k :
  nth_error s k = Some ch ->
  (forall j, (j < k)%nat -> nth_error s j <> Some ch) ->
  strchr s ch = Some k.
Proof.
  intros H1 H2. destruct (strchr s ch) as [k'|] eqn:E.
  - apply strchr_Some in E as [E1 E2]. f_equal.
    destruct (Nat.lt_trichotomy k' k) as [L|[L|L]]; [|easy|].
    + now apply H2 in L.
    + now apply E2 in L.
  - now apply strchr_None with (j := k) in E.
Qed.

Lemma strchr_absent s ch :
  (forall j, nth_error s j <> Some ch) -> strchr s ch = None.
Proof.
  intros H. destruct (strchr s ch) as [k|] eqn:E; [|easy].
  apply strchr_Some in E as [E _]. now apply H in E.
Qed.

(** [strstr] finds the first occurrence of the needle. *)
Lemma strstr_Some hay needle : forall k,
  strstr hay needle = Some k -> first_occurrence needle hay k.
Proof.
  induction hay as [|c hay IH]; intros k; simpl.
  - destruct needle; [|easy]. intros [= <-]. split.
    + now exists [], [].
    + intros; lia.
  - destruct (startsWith needle (c :: hay)) eqn:E.
    + intros [= <-]. apply startsWith_spec in E as [r Hr]. split.
      * now exists [], r.
      * intros; lia.
    + destruct (strstr hay needle) as [k'|]; simpl; [|easy].
      intros [= <-]. destruct (IH k' eq_refl) as [(l & r & Hl & Hk) Hmin]. split.
      * exists (c :: l), r. simpl. split; [now rewrite Hl | now rewrite Hk].
      * intros [|c' l'] r' Hlr; simpl in *.
        -- rewrite Hlr in E. rewrite startsWith_app in E. discriminate.
        -- injection Hlr as -> Hlr. apply Hmin in Hlr. lia.
Qed.

Lemma strstr_None hay needle : strstr hay needle = None -> ~ occurs needle hay.
Proof.
  induction hay as [|c hay IH]; simpl.
  - destruct needle; [easy|]. intros _ (l & r & H). now destruct l.
  - destruct (startsWith needle (c :: hay)) eqn:E; [easy|].
    destruct (strstr hay needle) eqn:E'; [easy|]. intros _ (l & r & H).
    destruct l as [|c' l]; simpl in H.
    + rewrite H in E. rewrite startsWith_app in E. discriminate.
    + injection H as -> H. apply IH; [easy|]. now exists l, r.
Qed.

Lemma first_occurrence_unique pat s i j :
  first_occurrence pat s i -> first_occurrence pat s j -> i = j.
Proof.
  intros [(l & r & H1 & H2) Hi] [(l' & r' & H1' & H2') Hj].
  apply Hi in H1'. apply Hj in H1. lia.
Qed.

Lemma first_occurrence_occurs pat s i : first_occurrence pat s i -> occurs pat s.
Proof. intros [(l & r & H & _) _]. now exists l, r. Qed.

Lemma strstr_first hay needle k :
  first_occurrence needle hay k -> strstr hay needle = Some k.
Proof.
  intros H. destruct (strstr hay needle) as [k'|] eqn:E.
  - apply strstr_Some in E. f_equal. eapply first_occurrence_unique; eauto.
  - apply strstr_None in E. now apply first_occurrence_occurs in H.
Qed.

Lemma strstr_occurs hay needle :
  occurs needle hay -> exists k, strstr hay needle = Some k.
Proof.
  intros H. destruct (strstr hay needle) as [k|] eqn:E; [now exists k|].
  now apply strstr_None in E.
Qed.

Lemma occurs_first pat s : occurs pat s -> exists i, first_occurrence pat s i.
Proof.
  intros H. apply strstr_occurs in H as [k Hk]. exists k. now apply strstr_Some.
Qed.

Lemma len_nonneg s : 0 <= len s.
Proof. unfold len. lia. Qed.

Lemma len_app s t : len (s ++ t) = len s + len t.
Proof. unfold len. rewrite length_app. lia. Qed.

Lemma first_occurrence_bound pat s i :
  first_occurrence pat s i -> Z.of_nat i + len pat <= len s.
Proof.
  intros [(l & r & -> & <-) _]. rewrite !len_app. unfold len.
  pose proof (len_nonneg r). unfold len in *. lia.
Qed.

(** Within [int32_t], [indexOf] from index 0 is the first occurrence. *)
Lemma indexOf_found s pat i :
  fits s -> pat <> [] -> first_occurrence pat s i ->
  indexOf s pat 0 = Z.of_nat i.
Proof.
  intros Hfit Hpat H. pose proof (first_occurrence_bound _ _ _ H) as Hb.
  unfold indexOf. rewrite to_uint_small by lia. simpl Z.to_nat.
  assert (0 < len pat) by (destruct pat; [easy | unfold len; simpl; lia]).
  destruct (len s <=? 0) eqn:E; [apply Z.leb_le in E; lia|].
  simpl skipn. rewrite (strstr_first _ _ _ H).
  unfold fits, INT32_MAX in Hfit. apply to_int32_small. lia.
Qed.

Lemma indexOf_absent s pat : ~ occurs pat s -> indexOf s pat 0 = -1.
Proof.
  intros H. unfold indexOf. rewrite to_uint_small by lia.
  destruct (len s <=? 0); [easy|]. simpl.
  destruct (strstr s pat) as [k|] eqn:E; [|easy].
  apply strstr_Some, first_occurrence_occurs in E. contradiction.
Qed.

Lemma indexOf_neg_iff s pat :
  fits s -> pat <> [] -> (indexOf s pat 0 < 0 <-> ~ occurs pat s).
Proof.
  intros Hfit Hpat. split.
  - intros H Hocc. apply occurs_first in Hocc as [i Hi].
    rewrite (indexOf_found _ _ _ Hfit Hpat Hi) in H. lia.
  - intros H. rewrite indexOf_absent by easy. lia.
Qed.

(** The start locator: one past the identifier and the opening quote. *)
Lemma getStartIndex_found s id i :
  fits s -> id <> [] -> first_occurrence id s i ->
  getStartIndex s id 0 = Z.of_nat i + len id + 1.
Proof.
  intros Hfit Hid H. unfold getStartIndex.
  rewrite (indexOf_found _ _ _ Hfit Hid H).
  destruct (Z.of_nat i <? 0) eqn:E; [apply Z.ltb_lt in E; lia|].
  pose proof (first_occurrence_bound _ _ _ H). pose proof (len_nonneg id).
  unfold add32, fits, INT32_MAX in *. rewrite to_int32_small; lia.
Qed.

Lemma getStartIndex_absent s id : ~ occurs id s -> getStartIndex s id 0 = -1.
Proof. intros H. unfold getStartIndex. now rewrite indexOf_absent. Qed.

Lemma getStartIndex_neg_iff s id :
  fits s -> id <> [] -> (getStartIndex s id 0 < 0 <-> ~ occurs id s).
Proof.
  intros Hfit Hid. split.
  - intros H Hocc. apply occurs_first in Hocc as [i Hi].
    rewrite (getStartIndex_found _ _ _ Hfit Hid Hi) in H.
    pose proof (len_nonneg id). lia.
  - intros H. rewrite getStartIndex_absent by easy. lia.
Qed.

(** Within [int32_t], [indexOf] for a character is [strchr] on the rest of
    the buffer. *)
Lemma indexOf_char_ideal s ch from :
  fits s -> 0 <= from <= INT32_MAX ->
  indexOf_char s ch from =
  match strchr (skipn (Z.to_nat from) s) ch with
  | Some k => from + Z.of_nat k
  | None => -1
  end.
Proof.
  intros Hfit Hfrom. unfold indexOf_char, INT32_MAX in *.
  rewrite to_uint_small by lia.
  destruct (len s <=? from) eqn:E.
  - apply Z.leb_le in E. rewrite skipn_all2; [easy|]. unfold len in E. lia.
  - apply Z.leb_gt in E.
    destruct (strchr (skipn (Z.to_nat from) s) ch) as [k|] eqn:Ek; [|easy].
    apply strchr_Some in Ek as [Ek _].
    assert (k < List.length (skipn (Z.to_nat from) s))%nat as Hk
      by (apply nth_error_Some; congruence).
    rewrite length_skipn in Hk. unfold fits, INT32_MAX, len in *.
    apply to_int32_small. lia.
Qed.

Lemma char_at_skipn s from k c :
  0 <= from ->
  nth_error (skipn (Z.to_nat from) s) k = Some c <-> char_at s (from + Z.of_nat k) c.
Proof.
  intros Hfrom. unfold char_at. rewrite nth_error_skipn.
  replace (Z.to_nat (from + Z.of_nat k)) with (Z.to_nat from + k)%nat by lia.
  split; [intros H; split; [lia | easy] | now intros [_ H]].
Qed.

Lemma strchr_first_char_from s ch from i :
  0 <= from -> first_char_from ch s from i ->
  strchr (skipn (Z.to_nat from) s) ch = Some (Z.to_nat (i - from)).
Proof.
  intros Hfrom (Hle & Hat & Hmin). apply strchr_first.
  - apply char_at_skipn; [easy|]. now replace (from + _) with i by lia.
  - intros j Hj Hn. apply char_at_skipn in Hn; [|easy].
    apply (Hmin (from + Z.of_nat j)); [lia | easy].
Qed.

Lemma strchr_no_char_from s ch from :
  0 <= from -> no_char_from ch s from ->
  strchr (skipn (Z.to_nat from) s) ch = None.
Proof.
  intros Hfrom H. apply strchr_absent. intros j Hj.
  apply char_at_skipn in Hj; [|easy]. apply (H (from + Z.of_nat j)); [lia | easy].
Qed.

Lemma first_char_from_strchr s ch from k :
  0 <= from -> strchr (skipn (Z.to_nat from) s) ch = Some k ->
  first_char_from ch s from (from + Z.of_nat k).
Proof.
  intros Hfrom H. apply strchr_Some in H as [H1 H2].
  split; [lia | split].
  - now apply char_at_skipn in H1.
  - intros j Hj Hn. apply (H2 (Z.to_nat (j - from))); [lia|].
    apply char_at_skipn; [easy|]. now replace (from + _) with j by lia.
Qed.

Lemma no_char_from_strchr s ch from :
  0 <= from -> strchr (skipn (Z.to_nat from) s) ch = None ->
  no_char_from ch s from.
Proof.
  intros Hfrom H j Hj Hn. apply (strchr_None _ _ H (Z.to_nat (j - from))).
  apply char_at_skipn; [easy|]. now replace (from + _) with j by lia.
Qed.

(** Within bounds [substring] is the slice, and [substring_from] the rest of
    the buffer. *)
Lemma substring_ideal s a b :
  fits s -> 0 <= a <= b -> b <= len s ->
  substring s a b = firstn (Z.to_nat (b - a)) (skipn (Z.to_nat a) s).
Proof.
  intros Hfit Hab Hb. unfold substring, fits, INT32_MAX in *.
  rewrite !to_uint_small by lia.
  destruct (b <? a) eqn:E; [apply Z.ltb_lt in E; lia|].
  destruct (len s <=? a) eqn:E1.
  - apply Z.leb_le in E1. rewrite skipn_all2; [now rewrite firstn_nil|].
    unfold len in E1. lia.
  - destruct (len s <? b) eqn:E2; [apply Z.ltb_lt in E2; lia | easy].
Qed.

Lemma substring_from_ideal s a :
  fits s -> 0 <= a <= INT32_MAX ->
  substring_from s a = skipn (Z.to_nat a) s.
Proof.
  intros Hfit Ha. unfold substring_from, substring, fits, INT32_MAX in *.
  pose proof (len_nonneg s). rewrite !to_uint_small by lia.
  destruct (len s <? a) eqn:E.
  - apply Z.ltb_lt in E. rewrite Z.leb_refl.
    rewrite skipn_all2; [easy | unfold len in E; lia].
  - apply Z.ltb_ge in E. destruct (len s <=? a) eqn:E1.
    + apply Z.leb_le in E1. rewrite skipn_all2; [easy | unfold len in E1; lia].
    + rewrite Z.ltb_irrefl. apply firstn_all2. rewrite length_skipn.
      unfold len. lia.
Qed.

(** * The end locator *)

Lemma getEndIndex_ideal s from :
  fits s -> 0 <= from <= INT32_MAX ->
  getEndIndex s from =
  match strchr (skipn (Z.to_nat from) s) ","%char with
  | Some k => from + Z.of_nat k - 1
  | None =>
      match strchr (skipn (Z.to_nat from) s) "}"%char with
      | Some k => from + Z.of_nat k - 1
      | None => -2
      end
  end.
Proof.
  intros Hfit Hfrom. unfold getEndIndex.
  rewrite !indexOf_char_ideal by easy.
  assert (forall c k, strchr (skipn (Z.to_nat from) s) c = Some k ->
                      from + Z.of_nat k < len s) as Hlt.
  { intros c k Hk. apply strchr_Some in Hk as [Hk _].
    assert (k < List.length (skipn (Z.to_nat from) s))%nat as Hk'
      by (apply nth_error_Some; congruence).
    rewrite length_skipn in Hk'. unfold len. lia. }
  unfold sub32, fits, INT32_MAX in *.
  destruct (strchr _ ","%char) as [k|] eqn:E1.
  - specialize (Hlt _ _ E1).
    destruct (from + Z.of_nat k <? 0) eqn:E; [apply Z.ltb_lt in E; lia|].
    apply to_int32_small. lia.
  - simpl. destruct (strchr _ "}"%char) as [k|] eqn:E2; [|easy].
    specialize (Hlt _ _ E2). apply to_int32_small. lia.
Qed.

(** A negative search start converts to an [unsigned int] past the end of
    every buffer: nothing is found. *)
Lemma getEndIndex_negative_start s from :
  fits s -> - 2 ^ 31 <= from < 0 -> getEndIndex s from = -2.
Proof.
  intros Hfit Hfrom. unfold getEndIndex, indexOf_char.
  assert (2 ^ 31 <= to_uint from) as H.
  { unfold to_uint. replace from with (from + 2 ^ 32 + (-1) * 2 ^ 32) by lia.
    rewrite Z.mod_add by lia. rewrite Z.mod_small; lia. }
  unfold fits, INT32_MAX in Hfit.
  destruct (len s <=? to_uint from) eqn:E; [reflexivity|].
  apply Z.leb_gt in E. lia.
Qed.

(** C5, as the code has it. For a message that fits [int32_t] and a search
    start position [start >= 0]: [getEndIndex] returns one less than the index
    of the first comma at or after [start]; without such a comma, one less
    than the index of the first closing brace at or after [start]; without
    either, -2. The result is negative exactly when neither delimiter occurs
    at or after [start] or the delimiter found sits at index 0, so for every
    [start >= 1] it is negative exactly when neither delimiter occurs at or
    after [start]. *)
Theorem getEndIndex_spec (msg : String) (start : Z) :
  fits msg -> 0 <= start <= INT32_MAX ->
  (forall i, first_char_from ","%char msg start i -> getEndIndex msg start = i - 1)
  /\ (no_char_from ","%char msg start ->
      forall j, first_char_from "}"%char msg start j -> getEndIndex msg start = j - 1)
  /\ (no_char_from ","%char msg start -> no_char_from "}"%char msg start ->
      getEndIndex msg start = -2)
  /\ (getEndIndex msg start < 0 <->
      (no_char_from ","%char msg start /\ no_char_from "}"%char msg start)
      \/ first_char_from ","%char msg start 0
      \/ (no_char_from ","%char msg start /\ first_char_from "}"%char msg start 0))
  /\ (1 <= start ->
      (getEndIndex msg start < 0 <->
       no_char_from ","%char msg start /\ no_char_from "}"%char msg start)).
Proof.
  intros Hfit Hstart. rewrite (getEndIndex_ideal _ _ Hfit Hstart).
  assert (0 <= start) as H0 by lia.
  assert (Hc : forall i, first_char_from ","%char msg start i ->
               strchr (skipn (Z.to_nat start) msg) ","%char = Some (Z.to_nat (i - start))
               /\ start <= i)
    by (intros i Hi; split; [now apply strchr_first_char_from | apply Hi]).
  assert (Hb : forall i, first_char_from "}"%char msg start i ->
               strchr (skipn (Z.to_nat start) msg) "}"%char = Some (Z.to_nat (i - start))
               /\ start <= i)
    by (intros i Hi; split; [now apply strchr_first_char_from | apply Hi]).
  pose proof (strchr_no_char_from msg ","%char start H0) as Hnc.
  pose proof (strchr_no_char_from msg "}"%char start H0) as Hnb.
  split; [|split; [|split; [|split]]].
  - intros i Hi. apply Hc in Hi as [-> Hi]. lia.
  - intros Hn j Hj. rewrite (Hnc Hn). apply Hb in Hj as [-> Hj]. lia.
  - intros Hn1 Hn2. now rewrite (Hnc Hn1), (Hnb Hn2).
  - destruct (strchr _ ","%char) as [k|] eqn:E1.
    + pose proof (first_char_from_strchr _ _ _ _ H0 E1) as F. split.
      * intros Hneg. right; left. now replace 0 with (start + Z.of_nat k) by lia.
      * intros [[Hn _]|[Hz|[Hn _]]].
        -- apply Hnc in Hn. congruence.
        -- apply Hc in Hz as [Hz Hle]. injection Hz as ->. lia.
        -- apply Hnc in Hn. congruence.
    + pose proof (no_char_from_strchr _ _ _ H0 E1) as Hn.
      destruct (strchr _ "}"%char) as [k|] eqn:E2.
      * pose proof (first_char_from_strchr _ _ _ _ H0 E2) as F. split.
        -- intros Hneg. right; right. split; [easy|].
           now replace 0 with (start + Z.of_nat k) by lia.
        -- intros [[_ Hn2]|[Hz|[_ Hz]]].
           ++ apply Hnb in Hn2. congruence.
           ++ apply Hc in Hz as [Hz _]. congruence.
           ++ apply Hb in Hz as [Hz Hle]. injection Hz as ->. lia.
      * pose proof (no_char_from_strchr _ _ _ H0 E2) as Hn2. split; [|lia].
        intros _. now left.
  - intros H1. destruct (strchr _ ","%char) as [k|] eqn:E1.
    + split; [lia|]. intros [Hn _]. apply Hnc in Hn. congruence.
    + pose proof (no_char_from_strchr _ _ _ H0 E1) as Hn.
      destruct (strchr _ "}"%char) as [k|] eqn:E2.
      * split; [lia|]. intros [_ Hn2]. apply Hnb in Hn2. congruence.
      * pose proof (no_char_from_strchr _ _ _ H0 E2) as Hn2. split; [easy | lia].
Qed.

Lemma getEndIndex_range s from :
  fits s -> 0 <= from <= INT32_MAX ->
  (getEndIndex s from = -2 \/ from - 1 <= getEndIndex s from < len s - 1).
Proof.
  intros Hfit Hfrom. rewrite (getEndIndex_ideal _ _ Hfit Hfrom).
  assert (forall c k, strchr (skipn (Z.to_nat from) s) c = Some k ->
                      from + Z.of_nat k < len s) as Hlt.
  { intros c k Hk. apply strchr_Some in Hk as [Hk _].
    assert (k < List.length (skipn (Z.to_nat from) s))%nat as Hk'
      by (apply nth_error_Some; congruence).
    rewrite length_skipn in Hk'. unfold len. lia. }
  destruct (strchr _ ","%char) as [k|] eqn:E1.
  - specialize (Hlt _ _ E1). right. lia.
  - destruct (strchr _ "}"%char) as [k|] eqn:E2; [|now left].
    specialize (Hlt _ _ E2). right. lia.
Qed.

(** The start locator either reports absence or points one past the first
    occurrence of the identifier and the character after it. *)
Lemma getStartIndex_cases s id :
  fits s -> id <> [] ->
  (~ occurs id s /\ getStartIndex s id 0 = -1)
  \/ (exists i, first_occurrence id s i
                /\ getStartIndex s id 0 = Z.of_nat i + len id + 1
                /\ 1 <= getStartIndex s id 0 <= INT32_MAX).
Proof.
  intros Hfit Hid. destruct (strstr s id) as [k|] eqn:E.
  - right. exists k. apply strstr_Some in E. split; [easy|].
    rewrite (getStartIndex_found _ _ _ Hfit Hid E). split; [easy|].
    pose proof (first_occurrence_bound _ _ _ E). pose proof (len_nonneg id).
    unfold fits in Hfit. lia.
  - left. apply strstr_None in E. split; [easy|]. now apply getStartIndex_absent.
Qed.

(** * Hardware address getters *)

Section MacGetters.

Variable stringToMac : String -> list Byte.byte -> list Byte.byte.

Lemma getMac_spec id (get : String -> list Byte.byte -> bool * list Byte.byte)
  msg arr :
  (forall resultArray, get msg resultArray =
     let startIndex := getStartIndex msg id 0 in
     if startIndex <? 0 then (false, resultArray)
     else
       let endIndex := getEndIndex msg startIndex in
       if (endIndex <? 0) || negb (sub32 endIndex startIndex =? 12)
       then (false, resultArray)
       else (true, stringToMac (substring msg startIndex endIndex) resultArray)) ->
  fits msg -> id <> [] ->
  span_rule stringToMac id get msg arr.
Proof.
  intros Hget Hfit Hid. unfold span_rule. rewrite Hget. cbv zeta.
  set (s := getStartIndex msg id 0). set (e := getEndIndex msg s).
  destruct (getStartIndex_cases msg id Hfit Hid) as [[_ Hs]|(i & Hi & Hs & Hr)];
    fold s in Hs.
  - assert (e = -2) as He.
    { unfold e. rewrite Hs. unfold getEndIndex, indexOf_char.
      assert (2 ^ 31 <= to_uint (-1)) by (unfold to_uint; now vm_compute).
      unfold fits, INT32_MAX in Hfit.
      destruct (len msg <=? to_uint (-1)) eqn:E; [easy|].
      apply Z.leb_gt in E. lia. }
    destruct (s <? 0) eqn:E; [|apply Z.ltb_ge in E; lia]. simpl.
    repeat split; try easy; intros; lia.
  - fold s in Hr. destruct (s <? 0) eqn:E; [apply Z.ltb_lt in E; lia|].
    assert (0 <= s <= INT32_MAX) as Hs' by lia.
    pose proof (getEndIndex_range msg s Hfit Hs') as He. fold e in He.
    destruct (e <? 0) eqn:E1; simpl.
    + apply Z.ltb_lt in E1. repeat split; try easy; intros; lia.
    + apply Z.ltb_ge in E1.
      assert (sub32 e s = e - s) as Hsub.
      { unfold sub32, fits, INT32_MAX in *. apply to_int32_small. lia. }
      rewrite Hsub. destruct (e - s =? 12) eqn:E2; simpl.
      * apply Z.eqb_eq in E2. repeat split; try easy; try lia.
        rewrite substring_ideal by (try easy; lia).
        rewrite length_firstn, length_skipn. unfold len in He. lia.
      * apply Z.eqb_neq in E2. repeat split; try easy; intros; lia.
Qed.

End MacGetters.

(** C7. [getPeerStaMac] and [getPeerApMac] return false, leaving the array
    untouched, unless the span from the position of the start locator to the
    position of the end locator is exactly 12 characters; a span of any other
    length, 10 for one, fails, and a span of 12 is what gets converted with a
    true return. *)
Theorem getPeerMac_span_rule
  (stringToMac : String -> list Byte.byte -> list Byte.byte)
  (msg : String) (resultArray : list Byte.byte) :
  fits msg ->
  span_rule stringToMac jsonPeerStaMac (getPeerStaMac stringToMac) msg resultArray
  /\ span_rule stringToMac jsonPeerApMac (getPeerApMac stringToMac) msg resultArray.
Proof.
  intros Hfit. split; now apply getMac_spec.
Qed.

Lemma getPeerMac_span_rule_witness :
  fits addressMessage
  /\ span_rule Sample.stringToMac jsonPeerStaMac
       (getPeerStaMac Sample.stringToMac) addressMessage []
  /\ span_rule Sample.stringToMac jsonPeerApMac
       (getPeerApMac Sample.stringToMac) addressMessage [].
Proof.
  split; [now vm_compute|].
  apply (getPeerMac_span_rule Sample.stringToMac addressMessage []).
  now vm_compute.
Defined.

Example getPeerStaMac_twelve :
  getPeerStaMac Sample.stringToMac addressMessage [] = (true, Sample.staMac).
Proof. now vm_compute. Qed.

Example getPeerApMac_ten :
  getPeerApMac Sample.stringToMac addressMessage Sample.apMac = (false, Sample.apMac).
Proof. now vm_compute. Qed.

(** * Getters built on the two locators *)

Lemma getEndIndex_neg_iff msg s :
  fits msg -> 0 < s <= INT32_MAX ->
  (getEndIndex msg s < 0 <-> unterminated msg s).
Proof.
  intros Hfit Hs. assert (0 <= s) as H0 by lia. unfold unterminated.
  rewrite getEndIndex_ideal by (try easy; lia).
  destruct (strchr _ ","%char) as [k|] eqn:E1.
  - split; [lia|]. intros [Hn _]. apply strchr_no_char_from in Hn; [|easy].
    congruence.
  - destruct (strchr _ "}"%char) as [k|] eqn:E2.
    + split; [lia|]. intros [_ Hn]. apply strchr_no_char_from in Hn; [|easy].
      congruence.
    + split; [|lia]. intros _. split; now apply no_char_from_strchr.
Qed.

Lemma valueStart_range id msg i :
  fits msg -> first_occurrence id msg i -> 0 < valueStart id i <= INT32_MAX.
Proof.
  intros Hfit H. pose proof (first_occurrence_bound _ _ _ H).
  pose proof (len_nonneg id). unfold valueStart, fits in *. lia.
Qed.

Lemma getStartIndex_valueStart id msg i :
  fits msg -> id <> [] -> first_occurrence id msg i ->
  getStartIndex msg id 0 = valueStart id i.
Proof. intros. now apply getStartIndex_found. Qed.

Ltac absent_case Hfit Hid Hn :=
  rewrite (getStartIndex_absent _ _ Hn); reflexivity.

Ltac present_case Hfit Hid Hi :=
  rewrite (getStartIndex_valueStart _ _ _ Hfit Hid Hi);
  let E := fresh "E" in
  destruct (valueStart _ _ <? 0) eqn:E;
  [ apply Z.ltb_lt in E; pose proof (valueStart_range _ _ _ Hfit Hi); lia | ].

Lemma located_rule_holds {A : Type} (id : String) (convert : String -> A)
  (get : String -> A -> bool * A) (msg : String) :
  (forall result, get msg result =
     let startIndex := getStartIndex msg id 0 in
     if startIndex <? 0 then (false, result)
     else
       let endIndex := getEndIndex msg startIndex in
       if endIndex <? 0 then (false, result)
       else (true, convert (substring msg startIndex endIndex))) ->
  fits msg -> id <> [] -> located_rule id convert get msg.
Proof.
  intros Hget Hfit Hid result. rewrite Hget. cbv zeta. split.
  - intros Hn. absent_case Hfit Hid Hn.
  - intros i Hi. cbv zeta. present_case Hfit Hid Hi.
    pose proof (valueStart_range _ _ _ Hfit Hi) as Hr.
    pose proof (getEndIndex_neg_iff msg _ Hfit Hr) as Hneg.
    destruct (getEndIndex msg (valueStart id i) <? 0) eqn:E1.
    + apply Z.ltb_lt in E1. split; [easy|]. intros Hn. now apply Hneg in E1.
    + apply Z.ltb_ge in E1. split; [|easy]. intros Hn. apply Hneg in Hn. lia.
Qed.

Lemma address_rule_holds stringToMac id
  (get : String -> list Byte.byte -> bool * list Byte.byte) msg :
  (forall resultArray, get msg resultArray =
     let startIndex := getStartIndex msg id 0 in
     if startIndex <? 0 then (false, resultArray)
     else
       let endIndex := getEndIndex msg startIndex in
       if (endIndex <? 0) || negb (sub32 endIndex startIndex =? 12)
       then (false, resultArray)
       else (true, stringToMac (substring msg startIndex endIndex) resultArray)) ->
  fits msg -> id <> [] -> address_rule stringToMac id get msg.
Proof.
  intros Hget Hfit Hid arr. rewrite Hget. cbv zeta. split.
  - intros Hn. absent_case Hfit Hid Hn.
  - intros i Hi. cbv zeta. present_case Hfit Hid Hi.
    pose proof (valueStart_range _ _ _ Hfit Hi) as Hr.
    pose proof (getEndIndex_neg_iff msg _ Hfit Hr) as Hneg.
    assert (0 <= valueStart id i <= INT32_MAX) as Hr' by lia.
    pose proof (getEndIndex_range msg _ Hfit Hr') as He.
    destruct (getEndIndex msg (valueStart id i) <? 0) eqn:E1; simpl.
    + apply Z.ltb_lt in E1. split; [easy|]. intros Hn. now apply Hneg in E1.
    + apply Z.ltb_ge in E1.
      assert (sub32 (getEndIndex msg (valueStart id i)) (valueStart id i)
              = getEndIndex msg (valueStart id i) - valueStart id i) as ->.
      { unfold sub32, fits, INT32_MAX in *. apply to_int32_small. lia. }
      destruct (_ - _ =? 12) eqn:E2; simpl.
      * apply Z.eqb_eq in E2. split; [|easy].
        intros [Hn|Hn]; [apply Hneg in Hn|]; lia.
      * apply Z.eqb_neq in E2. split; [easy|]. intros _ Hn. lia.
Qed.

Lemma numeric_rule_holds {A : Type} (id : String) (convert : Z -> A)
  (get : String -> A -> bool * A) (msg : String) :
  (forall result, get msg result =
     let startIndex := getStartIndex msg id 0 in
     if startIndex <? 0 then (false, result)
     else (true, convert (strtoul (substring_from msg startIndex)))) ->
  fits msg -> id <> [] -> numeric_rule id convert get msg.
Proof.
  intros Hget Hfit Hid result. rewrite Hget. cbv zeta. split.
  - intros Hn. absent_case Hfit Hid Hn.
  - intros i Hi. present_case Hfit Hid Hi.
    pose proof (valueStart_range _ _ _ Hfit Hi) as Hr.
    rewrite substring_from_ideal by (try easy; lia). reflexivity.
Qed.

(** * The numeric parser *)

Lemma code_nonneg c : 0 <= code c.
Proof. unfold code. lia. Qed.

Lemma between_true a b x : (a <=? x) && (x <=? b) = true <-> a <= x <= b.
Proof. rewrite andb_true_iff, !Z.leb_le. tauto. Qed.

Lemma between_false a b x : (a <=? x) && (x <=? b) = false <-> x < a \/ b < x.
Proof. rewrite andb_false_iff, !Z.leb_gt. tauto. Qed.

Lemma digit_value_range c d : digit_value c = Some d -> 0 <= d < 36.
Proof.
  unfold digit_value. pose proof (code_nonneg c).
  destruct ((48 <=? code c) && (code c <=? 57)) eqn:E1;
    [apply between_true in E1; intros [= <-]; lia|].
  destruct ((65 <=? code c) && (code c <=? 90)) eqn:E2;
    [apply between_true in E2; intros [= <-]; lia|].
  destruct ((97 <=? code c) && (code c <=? 122)) eqn:E3;
    [apply between_true in E3; intros [= <-]; lia | easy].
Qed.

Lemma isdigit_bounds c : isdigit c = true <-> 48 <= code c <= 57.
Proof. unfold isdigit. apply between_true. Qed.

Lemma digit_value_isdigit c :
  isdigit c = true -> digit_value c = Some (code c - 48) /\ 0 <= code c - 48 < 10.
Proof.
  intros H. unfold digit_value. unfold isdigit in H. rewrite H.
  apply between_true in H. split; [easy | lia].
Qed.

Lemma digit_value_notdigit c :
  isdigit c = false ->
  digit_value c = None \/ exists d, digit_value c = Some d /\ 10 <= d.
Proof.
  intros H. unfold digit_value. unfold isdigit in H. rewrite H.
  destruct ((65 <=? code c) && (code c <=? 90)) eqn:E2.
  - apply between_true in E2. right. eexists; split; [easy|]. lia.
  - destruct ((97 <=? code c) && (code c <=? 122)) eqn:E3; [|now left].
    apply between_true in E3. right. eexists; split; [easy|]. lia.
Qed.

Lemma accumulate_range base s : forall acc overflow a o,
  0 <= base -> 0 <= acc <= ULONG_MAX ->
  accumulate base s acc overflow = (a, o) -> 0 <= a <= ULONG_MAX.
Proof.
  induction s as [|c s IH]; intros acc ov a o Hb Hacc; simpl.
  - now intros [= <- _].
  - destruct (digit_value c) as [d|] eqn:Ed; [|now intros [= <- _]].
    apply digit_value_range in Ed.
    destruct (base <=? d); [now intros [= <- _]|].
    destruct (ov || (ULONG_MAX <? acc * base + d)) eqn:E.
    + now apply IH.
    + apply orb_false_iff in E as [_ E]. apply Z.ltb_ge in E.
      apply IH; [easy|]. split; [|easy]. apply Z.add_nonneg_nonneg; [|lia].
      apply Z.mul_nonneg_nonneg; lia.
Qed.

Lemma strtoul_range s : 0 <= strtoul s <= ULONG_MAX.
Proof.
  unfold strtoul.
  destruct (match skip_spaces s with [] => _ | _ :: _ => _ end) as [neg s2].
  destruct (match s2 with [] => _ | _ :: _ => _ end) as [base s3] eqn:Eb.
  assert (0 <= base) as Hb.
  { destruct s2 as [|c0 [|c1 r]]; [now injection Eb as <- _| |].
    - destruct (eqb_ascii c0 "0"); now injection Eb as <- _.
    - destruct (eqb_ascii c0 "0" && _); [now injection Eb as <- _|].
      destruct (eqb_ascii c0 "0"); now injection Eb as <- _. }
  destruct (accumulate base s3 0 false) as [acc ov] eqn:Ea.
  apply accumulate_range in Ea; [|easy|unfold ULONG_MAX; lia].
  destruct ov; [unfold ULONG_MAX; lia|]. destruct neg; [|easy].
  unfold to_uint, ULONG_MAX.
  pose proof (Z.mod_pos_bound (- acc) (2 ^ 32) ltac:(lia)). lia.
Qed.

Lemma leadingDigits_ge s : forall acc, 0 <= acc -> acc <= leadingDigits s acc.
Proof.
  induction s as [|c s IH]; intros acc Hacc; simpl; [lia|].
  destruct (isdigit c) eqn:E; [|lia].
  apply digit_value_isdigit in E as [_ E].
  etransitivity; [|apply IH]; lia.
Qed.

Lemma accumulate_decimal s : forall acc,
  0 <= acc -> leadingDigits s acc <= ULONG_MAX ->
  accumulate 10 s acc false = (leadingDigits s acc, false).
Proof.
  induction s as [|c s IH]; intros acc Hacc Hmax; simpl in *; [easy|].
  destruct (isdigit c) eqn:E.
  - apply digit_value_isdigit in E as [-> E].
    destruct (10 <=? code c - 48) eqn:E1; [apply Z.leb_le in E1; lia|].
    pose proof (leadingDigits_ge s (acc * 10 + (code c - 48)) ltac:(lia)).
    destruct (ULONG_MAX <? acc * 10 + (code c - 48)) eqn:E2;
      [apply Z.ltb_lt in E2; lia|].
    simpl. apply IH; [lia | easy].
  - apply digit_value_notdigit in E as [->|(d & -> & Hd)]; [easy|].
    destruct (10 <=? d) eqn:E1; [easy | apply Z.leb_gt in E1; lia].
Qed.

Example strtoul_values :
  strtoul (wire "5000','nonce':'1F2'}}") = 5000
  /\ strtoul (wire "0x1F'}}") = 31
  /\ strtoul (wire "010'}}") = 8
  /\ strtoul (wire " 12'}}") = 12
  /\ strtoul (wire "-1'}}") = 4294967295
  /\ strtoul (wire "99999999999'}}") = 4294967295
  /\ strtoul (wire "'}}") = 0.
Proof. repeat split; now vm_compute. Qed.

(** On a plain decimal text whose digits stay within 32 bits, [strtoul] is
    the reading of the leading decimal digits. *)
Lemma strtoul_plainDecimal s :
  plainDecimal s = true -> parseLeadingDigits s <= ULONG_MAX ->
  strtoul s = parseLeadingDigits s.
Proof.
  destruct s as [|c r]; [easy|]. unfold plainDecimal, parseLeadingDigits.
  intros H Hmax. repeat (apply andb_true_iff in H as [H ?]).
  apply negb_true_iff in H, H1, H2.
  unfold strtoul. simpl skip_spaces. rewrite H, H2, H1.
  destruct (eqb_ascii c "0") eqn:E0.
  - apply eqb_ascii_eq in E0. subst c. simpl in H0.
    destruct r as [|c1 r]; [now vm_compute|].
    repeat (apply andb_true_iff in H0 as [H0 ?]).
    apply negb_true_iff in H0, H3, H4. rewrite H3, H4. simpl.
    rewrite H0.
    apply digit_value_notdigit in H0 as [->|(d & -> & Hd)]; [easy|].
    destruct (8 <=? d) eqn:E1; [easy | apply Z.leb_gt in E1; lia].
  - destruct r as [|c1 r]; simpl andb; cbv beta iota zeta.
    all: rewrite accumulate_decimal by (try easy; lia); reflexivity.
Qed.

(** * The counter getter *)

Lemma count_rule_holds msg : fits msg -> count_rule msg.
Proof.
  assert (jsonMeshMessageCount <> []) as Hid by easy.
  intros Hfit result. unfold getMeshMessageCount. split.
  - intros Hn. absent_case Hfit Hid Hn.
  - intros i Hi. present_case Hfit Hid Hi.
    pose proof (valueStart_range _ _ _ Hfit Hi) as Hr.
    rewrite substring_from_ideal by (try easy; lia). cbv zeta.
    pose proof (strtoul_range
                  (skipn (Z.to_nat (valueStart jsonMeshMessageCount i)) msg)) as Hv.
    destruct (strtoul _ <=? 65535) eqn:E1.
    + apply Z.leb_le in E1. split; [|lia]. intros _. f_equal.
      unfold to_uint16. apply Z.mod_small. lia.
    + apply Z.leb_gt in E1. split; [lia | easy].
Qed.

(** C6. When the meshMessageCount identifier occurs, first at index [i], and
    [v] is what [strtoul] reads from the value start: for [v <= 65535] the
    getter returns true and stores [v], which then fits 16 bits; for
    [v > 65535] the assertion fails, so the call neither returns false nor
    returns a truncated value. *)
Theorem getMeshMessageCount_bound (msg : String) (result : Z) (i : nat) :
  fits msg -> first_occurrence jsonMeshMessageCount msg i ->
  let v := strtoul (skipn (Z.to_nat (valueStart jsonMeshMessageCount i)) msg) in
  (v <= 65535 ->
   getMeshMessageCount msg result = Returns true v /\ to_uint16 v = v)
  /\ (65535 < v ->
      getMeshMessageCount msg result = AssertionFailure
      /\ forall ok out, getMeshMessageCount msg result <> Returns ok out).
Proof.
  intros Hfit Hi v. destruct (count_rule_holds msg Hfit result) as [_ H].
  destruct (H i Hi) as [H1 H2]. fold v in H1, H2. split.
  - intros Hv. split; [now apply H1|].
    pose proof (strtoul_range
                  (skipn (Z.to_nat (valueStart jsonMeshMessageCount i)) msg)).
    fold v in H0. unfold to_uint16. apply Z.mod_small. lia.
  - intros Hv. rewrite (H2 Hv). split; [easy | discriminate].
Qed.

Lemma getMeshMessageCount_bound_witness :
  fits (countMessage "65535")
  /\ first_occurrence jsonMeshMessageCount (countMessage "65535") 14
  /\ getMeshMessageCount (countMessage "65535") 7 = Returns true 65535.
Proof.
  assert (fits (countMessage "65535")) as Hfit by now vm_compute.
  assert (first_occurrence jsonMeshMessageCount (countMessage "65535") 14) as Hi
    by (apply strstr_Some; now vm_compute).
  split; [exact Hfit | split; [exact Hi|]].
  apply (getMeshMessageCount_bound (countMessage "65535") 7 14 Hfit Hi).
  now vm_compute.
Defined.

Example getMeshMessageCount_65535 :
  getMeshMessageCount (countMessage "65535") 0 = Returns true 65535.
Proof. now vm_compute. Qed.

Example getMeshMessageCount_65536 :
  getMeshMessageCount (countMessage "65536") 0 = AssertionFailure.
Proof. now vm_compute. Qed.

(** * The connection state getter *)

Lemma substring_general s a b :
  0 <= a < 2 ^ 32 -> 0 <= b < 2 ^ 32 ->
  substring s a b =
  firstn (Z.to_nat (Z.min (Z.max a b) (len s) - Z.min a b))
         (skipn (Z.to_nat (Z.min a b)) s).
Proof.
  intros Ha Hb. unfold substring. rewrite !to_uint_small by easy.
  assert (forall lo hi, lo <= hi ->
            (if len s <=? lo then []
             else firstn (Z.to_nat ((if len s <? hi then len s else hi) - lo))
                         (skipn (Z.to_nat lo) s))
            = firstn (Z.to_nat (Z.min hi (len s) - lo)) (skipn (Z.to_nat lo) s))
    as Hcore.
  { intros lo hi Hle. destruct (len s <=? lo) eqn:E.
    - apply Z.leb_le in E. rewrite skipn_all2; [now rewrite firstn_nil|].
      unfold len in E. lia.
    - destruct (len s <? hi) eqn:E1.
      + apply Z.ltb_lt in E1. now rewrite Z.min_r by lia.
      + apply Z.ltb_ge in E1. now rewrite Z.min_l by lia. }
  destruct (b <? a) eqn:E.
  - apply Z.ltb_lt in E. rewrite (Z.max_l a b), (Z.min_r a b) by lia.
    apply Hcore. lia.
  - apply Z.ltb_ge in E. rewrite (Z.max_r a b), (Z.min_l a b) by lia.
    now apply Hcore.
Qed.

Lemma strchr_app a b ch :
  ~ In ch a ->
  strchr (a ++ b) ch = option_map (Nat.add (List.length a)) (strchr b ch).
Proof.
  induction a as [|c a IH]; intros Hn; simpl.
  - now destruct (strchr b ch).
  - destruct (eqb_ascii c ch) eqn:E.
    + apply eqb_ascii_eq in E. subst. exfalso. apply Hn. now left.
    + rewrite IH by (intros H; apply Hn; now right).
      now destruct (strchr b ch).
Qed.

Lemma strchr_head b ch : strchr (ch :: b) ch = Some O.
Proof. simpl. now rewrite eqb_ascii_refl. Qed.

Lemma strchr_found a b ch : ~ In ch a -> strchr (a ++ ch :: b) ch = Some (List.length a).
Proof.
  intros H. rewrite strchr_app, strchr_head by easy. simpl. f_equal. lia.
Qed.

Lemma char_at_lt s j c : char_at s j c -> 0 <= j < len s.
Proof.
  intros [H0 H]. split; [easy|].
  assert (Z.to_nat j < List.length s)%nat by (apply nth_error_Some; congruence).
  unfold len. lia.
Qed.

Lemma indexOf_char_0_found s ch j :
  fits s -> first_char_from ch s 0 j -> indexOf_char s ch 0 = j.
Proof.
  intros Hfit H. rewrite indexOf_char_ideal by (try easy; unfold INT32_MAX; lia).
  rewrite (strchr_first_char_from _ _ _ _ (Z.le_refl 0) H).
  destruct H as (H0 & _ & _). lia.
Qed.

Lemma indexOf_char_0_absent s ch :
  fits s -> no_char_from ch s 0 -> indexOf_char s ch 0 = -1.
Proof.
  intros Hfit H. rewrite indexOf_char_ideal by (try easy; unfold INT32_MAX; lia).
  now rewrite (strchr_no_char_from _ _ _ (Z.le_refl 0) H).
Qed.

Lemma char_from_cases s ch from :
  0 <= from -> no_char_from ch s from \/ exists j, first_char_from ch s from j.
Proof.
  intros H0. destruct (strchr (skipn (Z.to_nat from) s) ch) as [k|] eqn:E.
  - right. exists (from + Z.of_nat k). now apply first_char_from_strchr.
  - left. now apply no_char_from_strchr.
Qed.

Lemma firstn_skipn_middle {A : Type} (a b c : list A) :
  firstn (List.length b) (skipn (List.length a) (a ++ b ++ c)) = b.
Proof.
  rewrite skipn_app, skipn_all, Nat.sub_diag. simpl.
  rewrite firstn_app, firstn_all, Nat.sub_diag. simpl. apply app_nil_r.
Qed.

Lemma substring_comm s x y : substring s x y = substring s y x.
Proof.
  unfold substring.
  destruct (to_uint y <? to_uint x) eqn:E1, (to_uint x <? to_uint y) eqn:E2;
    try reflexivity.
  - apply Z.ltb_lt in E1, E2. lia.
  - apply Z.ltb_ge in E1, E2. now replace (to_uint y) with (to_uint x) by lia.
Qed.

(** The slice of [a ++ b ++ c] between the ends of [a] and of [b]. *)
Lemma substring_middle (a b c : String) x y :
  fits (a ++ b ++ c) -> x = len a -> y = len a + len b ->
  substring (a ++ b ++ c) x y = b.
Proof.
  intros Hfit -> ->. pose proof (len_nonneg a). pose proof (len_nonneg b).
  pose proof (len_nonneg c).
  rewrite substring_ideal; [| exact Hfit | lia | rewrite !len_app; lia].
  replace (Z.to_nat (len a + len b - len a)) with (List.length b)
    by (unfold len; lia).
  replace (Z.to_nat (len a)) with (List.length a) by (unfold len; lia).
  apply firstn_skipn_middle.
Qed.

Lemma connectionState_rule_holds msg : fits msg -> connectionState_rule msg.
Proof.
  assert (jsonConnectionState <> []) as Hid by easy.
  intros Hfit result. unfold getConnectionState. split.
  - intros [Hn|Hn].
    + now rewrite indexOf_absent.
    + rewrite (indexOf_char_0_absent _ _ Hfit Hn). simpl.
      now destruct (indexOf msg jsonConnectionState 0 <? 0).
  - intros i j Hi Hj. rewrite (indexOf_found _ _ _ Hfit Hid Hi).
    rewrite (indexOf_char_0_found _ _ _ Hfit Hj).
    destruct Hj as (Hj0 & Hj & _). apply char_at_lt in Hj.
    destruct (Z.of_nat i <? 0) eqn:E; [apply Z.ltb_lt in E; lia|].
    destruct (j <? 0) eqn:E1; [apply Z.ltb_lt in E1; lia|].
    unfold add32, fits, INT32_MAX in *. rewrite to_int32_small by lia. easy.
Qed.

Lemma first_char_from_0_app pre ch post :
  ~ In ch pre -> first_char_from ch (pre ++ ch :: post) 0 (len pre).
Proof.
  intros Hn. pose proof (strchr_found pre post ch Hn) as H.
  apply (first_char_from_strchr (pre ++ ch :: post) ch 0) in H; [|lia].
  exact H.
Qed.

(** C10. [getConnectionState] returns true exactly when the identifier
    occurs and the message holds a closing brace. When the first closing
    brace of the message comes after the first occurrence of the identifier,
    the result is the text from the identifier, included, through that brace;
    when it comes before, the brace search having started at index 0, the
    result is the text between that brace and the identifier, which holds
    nothing of the field. A false return leaves the parameter untouched. *)
Theorem getConnectionState_spec (msg : String) :
  fits msg ->
  (forall result,
     fst (getConnectionState msg result) = true <->
     occurs jsonConnectionState msg /\ exists j, char_at msg j "}"%char)
  /\ (forall result,
        fst (getConnectionState msg result) = false ->
        snd (getConnectionState msg result) = result)
  /\ (forall result pre mid post,
        msg = pre ++ jsonConnectionState ++ mid ++ "}"%char :: post ->
        first_occurrence jsonConnectionState msg (List.length pre) ->
        ~ In "}"%char pre -> ~ In "}"%char mid ->
        getConnectionState msg result
        = (true, jsonConnectionState ++ mid ++ ["}"%char]))
  /\ (forall result pre mid post,
        msg = pre ++ "}"%char :: mid ++ jsonConnectionState ++ post ->
        first_occurrence jsonConnectionState msg (List.length pre + 1 + List.length mid) ->
        ~ In "}"%char pre ->
        getConnectionState msg result = (true, mid)).
Proof.
  intros Hfit. pose proof (connectionState_rule_holds msg Hfit) as Hrule.
  split; [|split; [|split]].
  - intros result. destruct (Hrule result) as [Hf Ht]. split.
    + intros H.
      destruct (strstr msg jsonConnectionState) as [i|] eqn:Ei.
      * apply strstr_Some in Ei.
        destruct (char_from_cases msg "}"%char 0 (Z.le_refl 0)) as [Hn|[j Hj]].
        -- rewrite Hf in H by now right. discriminate.
        -- split; [now apply first_occurrence_occurs in Ei|].
           exists j. apply Hj.
      * apply strstr_None in Ei. rewrite Hf in H by now left. discriminate.
    + intros [Hocc [j Hj]]. apply occurs_first in Hocc as [i Hi].
      destruct (char_from_cases msg "}"%char 0 (Z.le_refl 0)) as [Hn|[j' Hj']].
      * exfalso. apply (Hn j); [apply Hj | easy].
      * now rewrite (Ht i j' Hi Hj').
  - intros result H. destruct (Hrule result) as [Hf Ht].
    destruct (strstr msg jsonConnectionState) as [i|] eqn:Ei.
    + apply strstr_Some in Ei.
      destruct (char_from_cases msg "}"%char 0 (Z.le_refl 0)) as [Hn|[j Hj]].
      * now rewrite Hf by now right.
      * rewrite (Ht i j Ei Hj) in H. discriminate.
    + apply strstr_None in Ei. now rewrite Hf by now left.
  - intros result pre mid post Hmsg Hi Hpre Hmid.
    destruct (Hrule result) as [_ Ht].
    assert (first_char_from "}"%char msg 0
              (len (pre ++ jsonConnectionState ++ mid))) as Hj.
    { rewrite Hmsg.
      replace (pre ++ jsonConnectionState ++ mid ++ "}"%char :: post)
        with ((pre ++ jsonConnectionState ++ mid) ++ "}"%char :: post)
        by now rewrite <- !app_assoc.
      apply first_char_from_0_app. rewrite !in_app_iff.
      intros [H|[H|H]]; [now apply Hpre | | now apply Hmid].
      revert H. clear. simpl. intuition discriminate. }
    rewrite (Ht _ _ Hi Hj). f_equal. clear Ht Hj Hi Hrule. subst msg.
    replace (pre ++ jsonConnectionState ++ mid ++ "}"%char :: post)
      with (pre ++ (jsonConnectionState ++ mid ++ ["}"%char]) ++ post) in *
      by (now rewrite <- !app_assoc).
    apply substring_middle; [easy | unfold len; lia |].
    unfold len. rewrite !length_app. simpl List.length. lia.
  - intros result pre mid post Hmsg Hi Hpre.
    destruct (Hrule result) as [_ Ht].
    assert (first_char_from "}"%char msg 0 (len pre)) as Hj
      by (rewrite Hmsg; now apply first_char_from_0_app).
    rewrite (Ht _ _ Hi Hj). f_equal. clear Ht Hj Hi Hrule. subst msg.
    replace (pre ++ "}"%char :: mid ++ jsonConnectionState ++ post)
      with ((pre ++ ["}"%char]) ++ mid ++ jsonConnectionState ++ post) in *
      by (now rewrite <- !app_assoc).
    rewrite substring_comm.
    apply substring_middle; [easy | |];
      unfold len; rewrite !length_app; simpl List.length; lia.
Qed.

Lemma notIn_forallb (ch : ascii) (l : list ascii) :
  forallb (fun c => negb (eqb_ascii c ch)) l = true -> ~ In ch l.
Proof.
  intros H Hin. rewrite forallb_forall in H. apply H in Hin.
  now rewrite eqb_ascii_refl in Hin.
Qed.

Lemma notIn_forallb_iff (ch : ascii) (l : list ascii) :
  ~ In ch l <-> forallb (fun c => negb (eqb_ascii c ch)) l = true.
Proof.
  split; [|apply notIn_forallb]. intros H. apply forallb_forall. intros c Hc.
  apply negb_true_iff, eqb_ascii_neq. intros ->. contradiction.
Qed.

Lemma getConnectionState_spec_witness :
  fits stateMessage
  /\ getConnectionState stateMessage []
     = (true, wire "'connectionState':{'unsyncMsgID':'123'}").
Proof.
  assert (fits stateMessage) as Hfit by now vm_compute.
  split; [exact Hfit|].
  destruct (getConnectionState_spec stateMessage Hfit) as (_ & _ & H & _).
  apply (H [] (wire "MeshState:{") (wire "{'unsyncMsgID':'123'") ["}"%char]).
  - reflexivity.
  - apply strstr_Some. now vm_compute.
  - apply notIn_forallb. reflexivity.
  - apply notIn_forallb. reflexivity.
Defined.

Example getConnectionState_brace_first :
  getConnectionState braceFirstMessage [] = (true, wire "abc").
Proof. now vm_compute. Qed.

(** * The numeric getters *)

(** C9, as the code has it. When the identifier occurs, first at index [i],
    [getDuration], [getUnsynchronizedMessageID] and [getDesync] return true,
    and the output is what [strtoul] with base 0 reads from the text running
    from the value start to the end of the message buffer (for [getDesync]:
    whether that is nonzero); no delimiter is looked for. [strtoul] skips
    leading white space, takes a sign, reads base 16 after [0x] and base 8
    after a leading [0], and saturates at [2^32 - 1]; on a text that starts
    with none of these and whose leading decimal digits stay within 32 bits
    it is the reading of the leading digits up to the first non-digit. *)
Theorem numeric_getters_read_to_end (msg : String) :
  fits msg ->
  (forall result i, first_occurrence jsonDuration msg i ->
     getDuration msg result
     = (true, strtoul (skipn (Z.to_nat (valueStart jsonDuration i)) msg)))
  /\ (forall result i, first_occurrence jsonUnsynchronizedMessageID msg i ->
        getUnsynchronizedMessageID msg result
        = (true, strtoul (skipn (Z.to_nat (valueStart jsonUnsynchronizedMessageID i)) msg)))
  /\ (forall result i, first_occurrence jsonDesync msg i ->
        getDesync msg result
        = (true, negb (strtoul (skipn (Z.to_nat (valueStart jsonDesync i)) msg) =? 0)))
  /\ (forall s, plainDecimal s = true -> parseLeadingDigits s <= ULONG_MAX ->
        strtoul s = parseLeadingDigits s).
Proof.
  intros Hfit. split; [|split; [|split]].
  - intros result i Hi.
    now apply (numeric_rule_holds jsonDuration (fun v => v) getDuration msg).
  - intros result i Hi.
    now apply (numeric_rule_holds jsonUnsynchronizedMessageID (fun v => v)
                 getUnsynchronizedMessageID msg).
  - intros result i Hi.
    now apply (numeric_rule_holds jsonDesync (fun v => negb (v =? 0)) getDesync msg).
  - apply strtoul_plainDecimal.
Qed.

Lemma numeric_getters_read_to_end_witness :
  fits requestMessage
  /\ first_occurrence jsonDuration requestMessage 21
  /\ getDuration requestMessage 0
     = (true, strtoul (wire "5000','nonce':'1F2'}}")).
Proof.
  assert (fits requestMessage) as Hfit by now vm_compute.
  assert (first_occurrence jsonDuration requestMessage 21) as Hi
    by (apply strstr_Some; now vm_compute).
  split; [exact Hfit | split; [exact Hi|]].
  exact (proj1 (numeric_getters_read_to_end requestMessage Hfit) 0 21%nat Hi).
Defined.

(** The claim as worded fails on a value with a leading zero: [strtoul]
    reads "010" in base 8, the leading decimal digits read 10. *)
Lemma getDuration_leading_zero :
  first_occurrence jsonDuration octalMessage 14
  /\ getDuration octalMessage 0 = (true, 8)
  /\ parseLeadingDigits
       (skipn (Z.to_nat (valueStart jsonDuration 14)) octalMessage) = 10.
Proof.
  split; [apply strstr_Some; now vm_compute | split; now vm_compute].
Qed.

Example getDuration_without_delimiter :
  getDuration (wire "'duration':'5000") 0 = (true, 5000).
Proof. now vm_compute. Qed.

Example getDesync_values :
  getDesync (wire "{'arguments':{'desync':'1'}}") false = (true, true)
  /\ getDesync (wire "{'arguments':{'desync':'0'}}") true = (true, false).
Proof. split; now vm_compute. Qed.

(** * All getters *)

Section Getters.

Variable stringToUint64 : String -> Z.
Variable stringToMac : String -> list Byte.byte -> list Byte.byte.

(** C8, as the code has it. On a message that fits [int32_t] every getter
    but [getMeshMessageCount] returns false and leaves its output parameter
    as it was when the identifier is absent or the value is malformed in the
    getter's sense (no delimiter after the value start for the located
    getters, a span other than 12 for the addresses, no closing brace for the
    connection state), and returns true with the converted value otherwise.
    [getMeshMessageCount] does the same while the parsed value is at most
    65535 and aborts on its assertion beyond. Every getter is a total
    function: nothing is thrown. *)
Theorem getters_rule (msg : String) :
  fits msg ->
  connectionState_rule msg
  /\ located_rule jsonPassword (fun s => s) getPassword msg
  /\ located_rule jsonOwnSessionKey stringToUint64
       (getOwnSessionKey stringToUint64) msg
  /\ located_rule jsonPeerSessionKey stringToUint64
       (getPeerSessionKey stringToUint64) msg
  /\ address_rule stringToMac jsonPeerStaMac (getPeerStaMac stringToMac) msg
  /\ address_rule stringToMac jsonPeerApMac (getPeerApMac stringToMac) msg
  /\ numeric_rule jsonDuration (fun v => v) getDuration msg
  /\ located_rule jsonNonce (fun s => s) getNonce msg
  /\ located_rule jsonHmac (fun s => s) getHmac msg
  /\ numeric_rule jsonDesync (fun v => negb (v =? 0)) getDesync msg
  /\ numeric_rule jsonUnsynchronizedMessageID (fun v => v)
       getUnsynchronizedMessageID msg
  /\ count_rule msg.
Proof.
  intros Hfit. repeat apply conj.
  1: now apply connectionState_rule_holds.
  all: try (now apply located_rule_holds).
  all: try (now apply address_rule_holds).
  all: try (now apply numeric_rule_holds).
  all: now apply count_rule_holds.
Qed.

End Getters.

Lemma getters_rule_witness :
  fits infoMessage
  /\ located_rule jsonPassword (fun s => s) getPassword infoMessage
  /\ count_rule infoMessage.
Proof.
  assert (fits infoMessage) as Hfit by now vm_compute.
  split; [exact Hfit|].
  pose proof (getters_rule Sample.stringToUint64 Sample.stringToMac infoMessage Hfit)
    as H.
  split; [apply H | apply H].
Defined.

(** The claim as worded fails for [getMeshMessageCount]: on a count of 65536
    the identifier is present, and the call returns neither false nor true. *)
Lemma getMeshMessageCount_neither :
  occurs jsonMeshMessageCount (countMessage "65536")
  /\ forall result,
       getMeshMessageCount (countMessage "65536") result = AssertionFailure
       /\ forall ok out,
            getMeshMessageCount (countMessage "65536") result <> Returns ok out.
Proof.
  split.
  - exists (wire "{'arguments':{"), (wire "'65536'}}"). reflexivity.
  - intros result.
    assert (getMeshMessageCount (countMessage "65536") result = AssertionFailure)
      as H by now vm_compute.
    split; [exact H|]. intros ok out. rewrite H. discriminate.
Qed.

Example getPassword_absent :
  getPassword (wire "{'arguments':{'nonce':'AB12'}}") (wire "old")
  = (false, wire "old").
Proof. now vm_compute. Qed.

Example getters_on_infoMessage :
  getNonce infoMessage [] = (true, wire "1F2")
  /\ getPassword infoMessage [] = (true, wire "abc").
Proof. split; now vm_compute. Qed.

(** * The request intro *)

(** C4. [createEncryptionRequestIntro] emits the header, the opening
    [{"arguments":{] and then the duration pair, with the decimal rendering
    of the duration, exactly when the header is the temporary encryption
    request header; for every other header it emits the header and the
    opening and nothing else. *)
Theorem createEncryptionRequestIntro_duration
  (temporaryEncryptionRequestHeader header : String) (duration : Z) :
  (header = temporaryEncryptionRequestHeader ->
   createEncryptionRequestIntro temporaryEncryptionRequestHeader header duration
   = header ++ argumentsOpening
     ++ jsonDuration ++ dq :: String_of_ulong duration ++ [dq; ","%char])
  /\ (header <> temporaryEncryptionRequestHeader ->
      createEncryptionRequestIntro temporaryEncryptionRequestHeader header duration
      = header ++ argumentsOpening)
  /\ (createEncryptionRequestIntro temporaryEncryptionRequestHeader header duration
      = header ++ argumentsOpening
        ++ createJsonPair jsonDuration (String_of_ulong duration)
      <-> header = temporaryEncryptionRequestHeader).
Proof.
  unfold createEncryptionRequestIntro.
  destruct (equals header temporaryEncryptionRequestHeader) eqn:E.
  - apply equals_eq in E. split; [easy | split; [easy|]]. now split.
  - apply equals_neq in E. split; [easy | split].
    + intros _. now rewrite app_nil_r.
    + split; [|easy]. intros H.
      apply app_inv_head in H. apply app_inv_head in H. discriminate.
Qed.

Example createEncryptionRequestIntro_temporary :
  createEncryptionRequestIntro Sample.temporaryEncryptionRequestHeader
    (wire "AddTEC:") 5000
  = wire "AddTEC:{'arguments':{'duration':'5000',".
Proof. now vm_compute. Qed.

Example createEncryptionRequestIntro_other :
  createEncryptionRequestIntro Sample.temporaryEncryptionRequestHeader
    (wire "AddEC:") 5000
  = wire "AddEC:{'arguments':{".
Proof. now vm_compute. Qed.

(** * HMAC verification *)

Section Verification.

Variable macToString : list Byte.byte -> String.
Variable verifyMeshHmac : String -> String -> list Byte.byte -> Z -> bool.
Variable SHA256_NATURAL_LENGTH : Z.

(** C3. [verifyEncryptionRequestHmac] returns false when the hmac field
    cannot be extracted (the identifier is absent, or no delimiter follows the
    value start) and when the extracted tag is not
    [2 * SHA256_NATURAL_LENGTH] characters long; with a tag of that length it
    returns what the external verifier answers for the tag over
    [macToString requesterStaMac ++ macToString requesterApMac] followed by
    the part of the message strictly before the first occurrence of the hmac
    identifier. *)
Theorem verifyEncryptionRequestHmac_spec (msg : String)
  (requesterStaMac requesterApMac hashKey : list Byte.byte) (hashKeyLength : Z) :
  fits msg ->
  (~ occurs jsonHmac msg ->
   verifyEncryptionRequestHmac macToString verifyMeshHmac
     SHA256_NATURAL_LENGTH msg requesterStaMac requesterApMac hashKey hashKeyLength = false)
  /\ forall i, first_occurrence jsonHmac msg i ->
       let s := valueStart jsonHmac i in
       let tag := substring msg s (getEndIndex msg s) in
       (unterminated msg s ->
        verifyEncryptionRequestHmac macToString verifyMeshHmac
     SHA256_NATURAL_LENGTH msg requesterStaMac requesterApMac hashKey hashKeyLength = false)
       /\ (~ unterminated msg s -> len tag <> 2 * SHA256_NATURAL_LENGTH ->
           verifyEncryptionRequestHmac macToString verifyMeshHmac
     SHA256_NATURAL_LENGTH msg requesterStaMac requesterApMac hashKey hashKeyLength = false)
       /\ (~ unterminated msg s -> len tag = 2 * SHA256_NATURAL_LENGTH ->
           verifyEncryptionRequestHmac macToString verifyMeshHmac
     SHA256_NATURAL_LENGTH msg requesterStaMac requesterApMac hashKey hashKeyLength
           = verifyMeshHmac
               (macToString requesterStaMac ++ macToString requesterApMac
                ++ firstn i msg)
               tag hashKey hashKeyLength).
Proof.
  assert (jsonHmac <> []) as Hid by easy.
  intros Hfit. unfold verifyEncryptionRequestHmac.
  destruct (located_rule_holds jsonHmac (fun s => s) getHmac msg
              (fun _ => eq_refl) Hfit Hid []) as [Habs Hpres].
  split.
  - intros Hn. now rewrite (Habs Hn).
  - intros i Hi. destruct (Hpres i Hi) as [Hu Ht]. cbv zeta in Hu, Ht.
    set (s := valueStart jsonHmac i) in *.
    set (tag := substring msg s (getEndIndex msg s)) in *.
    split; [|split].
    + intros H. now rewrite (Hu H).
    + intros H Hlen. rewrite (Ht H).
      rewrite (indexOf_found _ _ _ Hfit Hid Hi).
      destruct (Z.of_nat i <? 0); [easy|].
      apply Z.eqb_neq in Hlen. now rewrite Hlen.
    + intros H Hlen. rewrite (Ht H).
      rewrite (indexOf_found _ _ _ Hfit Hid Hi).
      destruct (Z.of_nat i <? 0) eqn:E; [apply Z.ltb_lt in E; lia|].
      apply Z.eqb_eq in Hlen. rewrite Hlen. simpl. do 3 f_equal.
      pose proof (first_occurrence_bound _ _ _ Hi). pose proof (len_nonneg jsonHmac).
      rewrite substring_ideal by (try easy; lia). simpl.
      now rewrite Z.sub_0_r, Nat2Z.id.
Qed.

End Verification.

(** * Locating a field in a composed message *)

Lemma strstr_prefix pat post : strstr (pat ++ post) pat = Some O.
Proof.
  destruct (pat ++ post) eqn:E.
  - apply app_eq_nil in E as [-> _]. reflexivity.
  - simpl. rewrite <- E. now rewrite startsWith_app.
Qed.

Lemma strstr_skip pat a rest :
  no_start_in pat a rest ->
  strstr (a ++ rest) pat = option_map (Nat.add (List.length a)) (strstr rest pat).
Proof.
  induction a as [|c a IH]; intros H; simpl.
  - now destruct (strstr rest pat).
  - pose proof (H [] (c :: a) eq_refl ltac:(easy)) as Hc. simpl in Hc.
    rewrite Hc, IH.
    + now destruct (strstr rest pat).
    + intros a1 a2 Ha Hne. apply (H (c :: a1) a2); [now rewrite Ha | easy].
Qed.

Lemma first_occurrence_after pat pre post :
  no_start_in pat pre (pat ++ post) ->
  first_occurrence pat (pre ++ pat ++ post) (List.length pre).
Proof.
  intros H. apply strstr_Some. rewrite (strstr_skip _ _ _ H), strstr_prefix.
  simpl. f_equal. lia.
Qed.

Lemma no_start_in_nil pat rest : no_start_in pat [] rest.
Proof. intros a1 a2 H Hne. symmetry in H. apply app_eq_nil in H as [_ ->]. easy. Qed.

Lemma no_start_in_cons pat c a rest :
  startsWith pat (c :: a ++ rest) = false -> no_start_in pat a rest ->
  no_start_in pat (c :: a) rest.
Proof.
  intros Hc Ha a1 a2 H Hne. destruct a1 as [|c' a1]; simpl in H.
  - now subst a2.
  - injection H as -> H. now apply (Ha a1 a2).
Qed.

Lemma no_start_in_app pat a b rest :
  no_start_in pat a (b ++ rest) -> no_start_in pat b rest ->
  no_start_in pat (a ++ b) rest.
Proof.
  intros Ha Hb a1 a2 H Hne. apply app_eq_app in H as [l [[H1 H2]|[H1 H2]]].
  - subst a2. destruct l as [|x l].
    + simpl in *. apply (Hb [] b); easy.
    + rewrite <- app_assoc. apply (Ha a1 (x :: l)); easy.
  - now apply (Hb l a2).
Qed.

(** A pattern that starts with a quote starts nowhere inside a text without
    quotes. *)
Lemma no_start_in_noquote pat a rest :
  ~ In dq a -> no_start_in (dq :: pat) a rest.
Proof.
  intros Hn a1 a2 H Hne. destruct a2 as [|x a2]; [easy|]. simpl.
  destruct (eqb_ascii dq x) eqn:E; [|easy]. apply eqb_ascii_eq in E. subst x.
  exfalso. apply Hn. rewrite H. apply in_or_app. right. now left.
Qed.

Lemma startsWith_split name tail : forall a rest,
  startsWith (name ++ tail) (a ++ rest) = true ->
  startsWith name a = true
  \/ exists c rest', rest = c :: rest' /\ In c name.
Proof.
  induction name as [|y name IH]; intros a rest H; simpl; [now left|].
  destruct a as [|x a]; simpl in H.
  - destruct rest as [|c rest]; [easy|]. apply andb_true_iff in H as [H _].
    apply eqb_ascii_eq in H. subst. right. exists c, rest. split; [easy | now left].
  - apply andb_true_iff in H as [Hx H]. rewrite Hx. simpl.
    apply IH in H as [H|(c & rest' & -> & Hin)]; [now left|].
    right. exists c, rest'. split; [easy | now right].
Qed.

Lemma head_not_in_spec name c rest :
  head_not_in name (c :: rest) = true -> ~ In c name.
Proof.
  simpl. intros H Hin. apply negb_true_iff in H.
  assert (existsb (eqb_ascii c) name = true) as E
    by (apply existsb_exists; exists c; split; [easy | apply eqb_ascii_refl]).
  congruence.
Qed.

Lemma startsWith_name_absent name tail a rest :
  ~ occurs name a -> head_not_in name rest = true ->
  startsWith (name ++ tail) (a ++ rest) = false.
Proof.
  intros Hn Hh. destruct (startsWith (name ++ tail) (a ++ rest)) eqn:E; [|easy].
  apply startsWith_split in E as [E|(c & rest' & -> & Hin)].
  - apply startsWith_spec in E as [r ->]. exfalso. apply Hn. now exists [], r.
  - now apply head_not_in_spec in Hh.
Qed.

(** A quoted name starts nowhere inside a text that does not hold the name,
    when the text is followed by a character foreign to the name. *)
Lemma no_start_in_name name tail a rest :
  ~ occurs name a -> head_not_in name rest = true ->
  no_start_in (dq :: name ++ tail) a rest.
Proof.
  intros Hn Hh a1 a2 H Hne. destruct a2 as [|x a2]; [easy|]. simpl.
  destruct (eqb_ascii dq x); [|easy]. simpl.
  apply startsWith_name_absent; [|easy].
  intros (l & r & Hlr). apply Hn. exists (a1 ++ x :: l), r.
  rewrite H, Hlr. now rewrite <- app_assoc.
Qed.

Lemma startsWith_noquote name tail : forall a rest,
  ~ In dq name -> ~ In dq a ->
  startsWith (name ++ dq :: tail) (a ++ dq :: rest) = true ->
  startsWith tail rest = true.
Proof.
  induction name as [|y name IH]; intros a rest Hname Ha H.
  - destruct a as [|x a]; simpl in H.
    + first [exact H | now apply andb_true_iff in H as [_ H]].
    + apply andb_true_iff in H as [H _]. apply eqb_ascii_eq in H. subst.
      exfalso. apply Ha. now left.
  - destruct a as [|x a]; simpl in H.
    + apply andb_true_iff in H as [H _]. apply eqb_ascii_eq in H. subst.
      exfalso. apply Hname. now left.
    + apply andb_true_iff in H as [_ H]. apply (IH a rest); try easy.
      * intros Hin. apply Hname. now right.
      * intros Hin. apply Ha. now right.
Qed.

Lemma startsWith_noquote_false name tail a rest :
  ~ In dq name -> ~ In dq a -> startsWith tail rest = false ->
  startsWith (name ++ dq :: tail) (a ++ dq :: rest) = false.
Proof.
  intros Hname Ha Ht.
  destruct (startsWith (name ++ dq :: tail) (a ++ dq :: rest)) eqn:E; [|easy].
  apply startsWith_noquote in E; congruence.
Qed.

Lemma startsWith_quote_name name tail a rest :
  ~ occurs name a -> head_not_in name rest = true ->
  startsWith (dq :: name ++ tail) (dq :: a ++ rest) = false.
Proof.
  intros Hn Hh. simpl. now apply startsWith_name_absent.
Qed.

Lemma startsWith_quote_noquote name tail a rest :
  ~ In dq name -> ~ In dq a -> startsWith tail rest = false ->
  startsWith (dq :: name ++ dq :: tail) (dq :: a ++ dq :: rest) = false.
Proof.
  intros Hname Ha Ht. simpl. now apply startsWith_noquote_false.
Qed.

(** A value [v] written after the first occurrence of its identifier and a
    quote, and closed by a quote and the delimiter [d], is what the two
    locators delimit. *)
Lemma locate_value (id pre v post : String) (d : ascii) (msg : String) :
  msg = pre ++ id ++ dq :: v ++ dq :: d :: post ->
  fits msg -> id <> [] ->
  no_start_in id pre (id ++ dq :: v ++ dq :: d :: post) ->
  ~ In ","%char v ->
  (d = ","%char \/ (d = "}"%char /\ ~ In "}"%char v /\ ~ In ","%char post)) ->
  let s := getStartIndex msg id 0 in
  0 <= s /\ 0 <= getEndIndex msg s /\ substring msg s (getEndIndex msg s) = v.
Proof.
  intros Hmsg Hfit Hid Hpre Hv Hd s.
  assert (first_occurrence id msg (List.length pre)) as Hocc
    by (rewrite Hmsg; now apply first_occurrence_after).
  assert (s = len (pre ++ id ++ [dq])) as Hs.
  { unfold s. rewrite (getStartIndex_found _ _ _ Hfit Hid Hocc).
    unfold len. rewrite !length_app. simpl. lia. }
  assert (msg = (pre ++ id ++ [dq]) ++ v ++ dq :: d :: post) as Hmsg'
    by (rewrite Hmsg, <- !app_assoc; reflexivity).
  pose proof (len_nonneg (pre ++ id ++ [dq])) as Hs0.
  assert (len msg = s + len v + 2 + len post) as Hlen.
  { rewrite Hmsg', Hs. unfold len. rewrite !length_app. simpl. lia. }
  pose proof (len_nonneg v). pose proof (len_nonneg post).
  assert (0 <= s <= INT32_MAX) as Hrange by (unfold fits in Hfit; lia).
  assert (skipn (Z.to_nat s) msg = v ++ dq :: d :: post) as Hskip.
  { rewrite Hs, Hmsg'. unfold len. rewrite Nat2Z.id.
    rewrite skipn_app, skipn_all, Nat.sub_diag. reflexivity. }
  assert (getEndIndex msg s = s + len v) as He.
  { rewrite (getEndIndex_ideal _ _ Hfit Hrange), Hskip.
    replace (v ++ dq :: d :: post) with ((v ++ [dq]) ++ d :: post)
      by (now rewrite <- app_assoc).
    assert (~ In ","%char (v ++ [dq])) as Hvq.
    { rewrite in_app_iff. intros [Hin|[Hin|[]]]; [easy | discriminate]. }
    destruct Hd as [->|(-> & Hb & Hp)].
    - rewrite (strchr_found _ _ _ Hvq). unfold len. rewrite length_app. simpl. lia.
    - rewrite (strchr_app _ _ _ Hvq). simpl strchr.
      replace (eqb_ascii "}" ",") with false by reflexivity.
      rewrite (strchr_absent post ","%char); simpl.
      + assert (~ In "}"%char (v ++ [dq])) as Hvb.
        { rewrite in_app_iff. intros [Hin|[Hin|[]]]; [easy | discriminate]. }
        rewrite (strchr_found _ _ _ Hvb). unfold len. rewrite length_app.
        simpl. lia.
      + intros j Hj. apply Hp. eapply nth_error_In. exact Hj. }
  rewrite He. split; [lia | split; [lia|]].
  rewrite Hmsg'. apply substring_middle; [now rewrite <- Hmsg' | easy | lia].
Qed.

Lemma located_value {A : Type} (convert : String -> A)
  (get : String -> A -> bool * A)
  (id pre v post : String) (d : ascii) (msg : String) (result : A) :
  (forall result, get msg result =
     let startIndex := getStartIndex msg id 0 in
     if startIndex <? 0 then (false, result)
     else
       let endIndex := getEndIndex msg startIndex in
       if endIndex <? 0 then (false, result)
       else (true, convert (substring msg startIndex endIndex))) ->
  msg = pre ++ id ++ dq :: v ++ dq :: d :: post ->
  fits msg -> id <> [] ->
  no_start_in id pre (id ++ dq :: v ++ dq :: d :: post) ->
  ~ In ","%char v ->
  (d = ","%char \/ (d = "}"%char /\ ~ In "}"%char v /\ ~ In ","%char post)) ->
  get msg result = (true, convert v).
Proof.
  intros Hget Hmsg Hfit Hid Hpre Hv Hd.
  destruct (locate_value id pre v post d msg Hmsg Hfit Hid Hpre Hv Hd)
    as (Hs & He & Hsub).
  rewrite Hget. cbv zeta.
  destruct (getStartIndex msg id 0 <? 0) eqn:E; [apply Z.ltb_lt in E; lia|].
  destruct (getEndIndex msg (getStartIndex msg id 0) <? 0) eqn:E1;
    [apply Z.ltb_lt in E1; lia|].
  now rewrite Hsub.
Qed.

(** * The connection info message *)

Ltac wire_normal :=
  unfold createEncryptedConnectionInfo, createEncryptionRequestHmacMessage,
    createJsonPair, createJsonEndPair, argumentsOpening;
  repeat (rewrite <- app_assoc || (progress simpl)).

Ltac skip_fixed := repeat (apply no_start_in_cons; [reflexivity|]).

Ltac skip_named name tail H :=
  skip_fixed;
  try (apply no_start_in_cons;
       [rewrite <- app_assoc;
        apply (startsWith_quote_name name tail); [exact H | reflexivity]|]);
  apply no_start_in_app;
  [apply (no_start_in_name name tail); [exact H | reflexivity]|].

Ltac skip_plain name tail H :=
  skip_fixed;
  apply no_start_in_cons;
  [rewrite <- app_assoc;
   apply (startsWith_quote_noquote name tail);
   [apply notIn_forallb; reflexivity | exact H | reflexivity]|];
  apply no_start_in_app; [apply no_start_in_noquote; exact H|].

Ltac skip_end := skip_fixed; apply no_start_in_nil.

Section ConnectionInfo.

Variable uint64ToString : Z -> String.
Variable stringToUint64 : String -> Z.

(** The conversions invert each other on 64-bit values, and a rendered key
    holds no quote, comma or closing brace. *)
Hypothesis uint64_roundtrip :
  forall k, 0 <= k < 2 ^ 64 -> stringToUint64 (uint64ToString k) = k.
Hypothesis uint64_plain : forall k, plainValue (uint64ToString k).

(** The message of the comment in [createEncryptedConnectionInfo]. *)
Lemma createEncryptedConnectionInfo_wire header nonce password A B :
  createEncryptedConnectionInfo uint64ToString header nonce password A B
  = header ++ wire "{'arguments':{'nonce':'" ++ nonce
    ++ wire "','password':'" ++ password
    ++ wire "','ownSK':'" ++ uint64ToString B
    ++ wire "','peerSK':'" ++ uint64ToString A ++ wire "'}}".
Proof. wire_normal. reflexivity. Qed.

(** C1, as the code has it. For keys [A] (the ownSessionKey argument) and
    [B] (the peerSessionKey argument), and for a header, a nonce and a
    password that hold neither of the names ownSK and peerSK, the message of
    [createEncryptedConnectionInfo] carries [B] under ownSK and [A] under
    peerSK: [getOwnSessionKey] returns true with [B] and [getPeerSessionKey]
    returns true with [A]. Commas and braces in the nonce or the password do
    no harm. *)
Theorem createEncryptedConnectionInfo_swaps_keys
  (header nonce password : String) (A B : Z) (result : Z) :
  0 <= A < 2 ^ 64 -> 0 <= B < 2 ^ 64 ->
  noSessionKeyName header -> noSessionKeyName nonce -> noSessionKeyName password ->
  fits (createEncryptedConnectionInfo uint64ToString header nonce password A B) ->
  getOwnSessionKey stringToUint64
    (createEncryptedConnectionInfo uint64ToString header nonce password A B) result
  = (true, B)
  /\ getPeerSessionKey stringToUint64
       (createEncryptedConnectionInfo uint64ToString header nonce password A B) result
     = (true, A).
Proof.
  intros HA HB [Hh1 Hh2] [Hn1 Hn2] [Hp1 Hp2] Hfit.
  destruct (uint64_plain A) as (HqA & HcA & HbA).
  destruct (uint64_plain B) as (HqB & HcB & HbB).
  set (pre := header ++ argumentsOpening ++ createJsonPair jsonNonce nonce
              ++ createJsonPair jsonPassword password).
  split.
  - rewrite <- (uint64_roundtrip B HB) at 2.
    apply (located_value stringToUint64 (getOwnSessionKey stringToUint64)
             jsonOwnSessionKey pre
             (uint64ToString B)
             (createJsonEndPair jsonPeerSessionKey (uint64ToString A)) ","%char);
      try easy.
    + unfold pre. wire_normal. reflexivity.
    + unfold pre. wire_normal.
      skip_named ownSessionKeyName [dq; ":"%char] Hh1.
      skip_named ownSessionKeyName [dq; ":"%char] Hn1.
      skip_named ownSessionKeyName [dq; ":"%char] Hp1.
      skip_end.
    + now left.
  - rewrite <- (uint64_roundtrip A HA) at 2.
    apply (located_value stringToUint64 (getPeerSessionKey stringToUint64)
             jsonPeerSessionKey
             (pre ++ createJsonPair jsonOwnSessionKey (uint64ToString B))
             (uint64ToString A) ["}"%char] "}"%char);
      try easy.
    + unfold pre. wire_normal. reflexivity.
    + unfold pre. wire_normal.
      skip_named peerSessionKeyName [dq; ":"%char] Hh2.
      skip_named peerSessionKeyName [dq; ":"%char] Hn2.
      skip_named peerSessionKeyName [dq; ":"%char] Hp2.
      skip_plain peerSessionKeyName [":"%char] HqB.
      skip_end.
    + right. repeat split; try easy. simpl. intuition discriminate.
Qed.

End ConnectionInfo.

(** The reference conversions meet the two requirements. *)

Lemma string_of_uint_digits d :
  forallb isdigit (list_ascii_of_string (NilEmpty.string_of_uint d)) = true.
Proof. induction d; simpl; try easy; now rewrite IHd. Qed.

Lemma digits_plain s : forallb isdigit s = true -> plainValue s.
Proof.
  intros H. rewrite forallb_forall in H.
  repeat split; intros Hin; apply H in Hin; discriminate.
Qed.

Lemma leadingDigits_digit c s acc :
  isdigit c = true ->
  leadingDigits (c :: s) acc = leadingDigits s (acc * 10 + (code c - 48)).
Proof. intros H. simpl. now rewrite H. Qed.

Lemma leadingDigits_uint_acc d : forall acc,
  leadingDigits (list_ascii_of_string (NilEmpty.string_of_uint d)) (Z.pos acc)
  = Z.pos (Pos.of_uint_acc d acc).
Proof.
  induction d; intros acc; [reflexivity | ..];
    cbn [NilEmpty.string_of_uint list_ascii_of_string Pos.of_uint_acc];
    rewrite leadingDigits_digit by reflexivity; rewrite <- IHd; f_equal;
    match goal with
    | |- context [code ?c] =>
        let v := eval vm_compute in (code c) in change (code c) with v
    end; lia.
Qed.

Lemma leadingDigits_uint d :
  leadingDigits (list_ascii_of_string (NilEmpty.string_of_uint d)) 0
  = Z.of_N (Pos.of_uint d).
Proof.
  induction d; [reflexivity | ..];
    cbn [NilEmpty.string_of_uint list_ascii_of_string Pos.of_uint];
    rewrite leadingDigits_digit by reflexivity;
    [exact IHd | apply (leadingDigits_uint_acc d) ..].
Qed.

(** [String(value)] is the decimal rendering: decimal digits only, and read
    back as decimal digits they give the value. *)
Lemma String_of_ulong_decimal value :
  0 <= value ->
  forallb isdigit (String_of_ulong value) = true
  /\ parseLeadingDigits (String_of_ulong value) = value.
Proof.
  intros Hv. split; [apply string_of_uint_digits|].
  unfold parseLeadingDigits, String_of_ulong. rewrite leadingDigits_uint.
  change (Pos.of_uint (N.to_uint (Z.to_N value)))
    with (N.of_uint (N.to_uint (Z.to_N value))).
  rewrite DecimalN.Unsigned.of_to. lia.
Qed.

Lemma String_of_ulong_plain value : plainValue (String_of_ulong value).
Proof. apply digits_plain, string_of_uint_digits. Qed.

Lemma Sample_uint64_plain k : plainValue (Sample.uint64ToString k).
Proof. apply digits_plain, string_of_uint_digits. Qed.

Lemma Sample_uint64_roundtrip k :
  0 <= k < 2 ^ 64 -> Sample.stringToUint64 (Sample.uint64ToString k) = k.
Proof.
  intros Hk. unfold Sample.stringToUint64, Sample.uint64ToString.
  rewrite string_of_list_ascii_of_string, NilEmpty.usu.
  rewrite DecimalN.Unsigned.of_to, Z2N.id by lia. now apply Z.mod_small.
Qed.

Lemma not_occurs_strstr pat s : strstr s pat = None -> ~ occurs pat s.
Proof. apply strstr_None. Qed.

Lemma createEncryptedConnectionInfo_swaps_keys_witness :
  getOwnSessionKey Sample.stringToUint64
    (createEncryptedConnectionInfo Sample.uint64ToString
       (wire "EncryptedCI:") (wire "1F2") (wire "a,b}c") 948 418) 0
  = (true, 418)
  /\ getPeerSessionKey Sample.stringToUint64
       (createEncryptedConnectionInfo Sample.uint64ToString
          (wire "EncryptedCI:") (wire "1F2") (wire "a,b}c") 948 418) 0
     = (true, 948).
Proof.
  apply (createEncryptedConnectionInfo_swaps_keys
           Sample.uint64ToString Sample.stringToUint64
           Sample_uint64_roundtrip Sample_uint64_plain).
  - lia.
  - lia.
  - split; apply not_occurs_strstr; reflexivity.
  - split; apply not_occurs_strstr; reflexivity.
  - split; apply not_occurs_strstr; reflexivity.
  - now vm_compute.
Defined.

(** The claim as worded leaves the header free: a header that holds an ownSK
    field of its own is found first, and [getOwnSessionKey] returns its
    value instead of the key [B = 2]. The conversions invert each other, and
    the nonce and the password hold no comma, no brace and no field name. *)
Lemma createEncryptedConnectionInfo_header_field :
  (forall k, 0 <= k < 2 ^ 64 ->
     Sample.stringToUint64 (Sample.uint64ToString k) = k)
  /\ plainValue (wire "1F2") /\ noSessionKeyName (wire "1F2")
  /\ plainValue (wire "abc") /\ noSessionKeyName (wire "abc")
  /\ getOwnSessionKey Sample.stringToUint64
       (createEncryptedConnectionInfo Sample.uint64ToString
          (wire "'ownSK':'7',") (wire "1F2") (wire "abc") 1 2) 0
     = (true, 7)
  /\ getOwnSessionKey Sample.stringToUint64
       (createEncryptedConnectionInfo Sample.uint64ToString
          (wire "'ownSK':'7',") (wire "1F2") (wire "abc") 1 2) 0
     <> (true, 2).
Proof.
  assert (getOwnSessionKey Sample.stringToUint64
            (createEncryptedConnectionInfo Sample.uint64ToString
               (wire "'ownSK':'7',") (wire "1F2") (wire "abc") 1 2) 0
          = (true, 7)) as H by now vm_compute.
  split; [exact Sample_uint64_roundtrip|].
  split; [repeat split; apply notIn_forallb; reflexivity|].
  split; [split; apply not_occurs_strstr; reflexivity|].
  split; [repeat split; apply notIn_forallb; reflexivity|].
  split; [split; apply not_occurs_strstr; reflexivity|].
  split; [exact H | rewrite H; discriminate].
Qed.

Example createEncryptedConnectionInfo_example :
  createEncryptedConnectionInfo Sample.uint64ToString
    (wire "EncryptedCI:") (wire "1F2") (wire "abc") 948 418
  = wire "EncryptedCI:{'arguments':{'nonce':'1F2','password':'abc','ownSK':'418','peerSK':'948'}}".
Proof. now vm_compute. Qed.

(** * The authenticated request *)

Section HmacMessage.

Variable macToString : list Byte.byte -> String.
Variable createMeshHmac : String -> list Byte.byte -> Z -> String.
Variable verifyMeshHmac : String -> String -> list Byte.byte -> Z -> bool.
Variable SHA256_NATURAL_LENGTH : Z.
Variable temporaryEncryptionRequestHeader : String.
Variable localStaMac localApMac : list Byte.byte.

(** The verifier accepts the tag the maker produces, the tag has the
    expected length, and it holds no comma or closing brace. *)
Hypothesis hmac_roundtrip : forall m key keyLength,
  verifyMeshHmac m (createMeshHmac m key keyLength) key keyLength = true.
Hypothesis hmac_length : forall m key keyLength,
  len (createMeshHmac m key keyLength) = 2 * SHA256_NATURAL_LENGTH.
Hypothesis hmac_plain : forall m key keyLength,
  ~ In ","%char (createMeshHmac m key keyLength)
  /\ ~ In "}"%char (createMeshHmac m key keyLength).

Lemma mainMessage_no_hmac header nonce duration rest :
  ~ occurs hmacName header -> ~ occurs hmacName nonce ->
  no_start_in jsonHmac
    (createEncryptionRequestIntro temporaryEncryptionRequestHeader header duration
     ++ createJsonPair jsonNonce nonce)
    (jsonHmac ++ rest).
Proof.
  intros Hh Hn. unfold createEncryptionRequestIntro.
  destruct (String_of_ulong_plain duration) as (Hq & _ & _).
  destruct (equals header temporaryEncryptionRequestHeader); wire_normal.
  - skip_named hmacName [dq; ":"%char] Hh.
    skip_plain hmacName [":"%char] Hq.
    skip_named hmacName [dq; ":"%char] Hn.
    skip_end.
  - skip_named hmacName [dq; ":"%char] Hh.
    skip_named hmacName [dq; ":"%char] Hn.
    skip_end.
Qed.

(** C2, as the code has it. With a verifier that accepts the maker's tags,
    tags of [2 * SHA256_NATURAL_LENGTH] characters without comma or closing
    brace, and a header and a nonce that do not hold the name hmac, the
    message of [createEncryptionRequestHmacMessage] passes
    [verifyEncryptionRequestHmac] under the same key for the station and
    access point addresses read when it was composed. *)
Theorem createEncryptionRequestHmacMessage_verifies
  (header nonce : String) (hashKey : list Byte.byte) (hashKeyLength duration : Z) :
  ~ occurs hmacName header -> ~ occurs hmacName nonce ->
  fits (createEncryptionRequestHmacMessage macToString createMeshHmac
          temporaryEncryptionRequestHeader localStaMac localApMac
          header nonce hashKey hashKeyLength duration) ->
  verifyEncryptionRequestHmac macToString verifyMeshHmac SHA256_NATURAL_LENGTH
    (createEncryptionRequestHmacMessage macToString createMeshHmac
       temporaryEncryptionRequestHeader localStaMac localApMac
       header nonce hashKey hashKeyLength duration)
    localStaMac localApMac hashKey hashKeyLength
  = true.
Proof.
  intros Hh Hn. unfold createEncryptionRequestHmacMessage.
  set (main := createEncryptionRequestIntro temporaryEncryptionRequestHeader
                 header duration ++ createJsonPair jsonNonce nonce).
  set (tag := createMeshHmac
                ((macToString localStaMac ++ macToString localApMac) ++ main)
                hashKey hashKeyLength).
  intros Hfit.
  assert (jsonHmac <> []) as Hid by easy.
  assert (main ++ createJsonEndPair jsonHmac tag
          = main ++ jsonHmac ++ dq :: tag ++ dq :: "}"%char :: ["}"%char]) as Hmsg
    by reflexivity.
  pose proof (mainMessage_no_hmac header nonce duration
                (dq :: tag ++ dq :: "}"%char :: ["}"%char]) Hh Hn) as Hpre.
  fold main in Hpre.
  destruct (hmac_plain ((macToString localStaMac ++ macToString localApMac) ++ main)
              hashKey hashKeyLength) as [Hc Hb]. fold tag in Hc, Hb.
  assert (getHmac (main ++ createJsonEndPair jsonHmac tag) [] = (true, tag)) as Hget.
  { apply (located_value (fun s => s) getHmac jsonHmac main tag
             ["}"%char] "}"%char); try easy.
    right. repeat split; try easy. simpl. intuition discriminate. }
  unfold verifyEncryptionRequestHmac. rewrite Hget.
  assert (first_occurrence jsonHmac (main ++ createJsonEndPair jsonHmac tag)
            (List.length main)) as Hocc
    by (rewrite Hmsg; now apply first_occurrence_after).
  rewrite (indexOf_found _ _ _ Hfit Hid Hocc).
  destruct (Z.of_nat (List.length main) <? 0) eqn:E; [apply Z.ltb_lt in E; lia|].
  unfold tag at 1. rewrite hmac_length, Z.eqb_refl. simpl.
  replace (substring (main ++ createJsonEndPair jsonHmac tag) 0
             (Z.of_nat (List.length main))) with main.
  - rewrite app_assoc. apply hmac_roundtrip.
  - symmetry. change (main ++ createJsonEndPair jsonHmac tag)
      with ([] ++ main ++ createJsonEndPair jsonHmac tag).
    apply substring_middle; [exact Hfit | reflexivity | reflexivity].
Qed.

End HmacMessage.

(** The reference primitives meet the three requirements. *)

Lemma hexDigit_plain n :
  (n < 16)%nat -> Sample.hexDigit n <> ","%char /\ Sample.hexDigit n <> "}"%char.
Proof.
  intros Hn. do 16 (destruct n as [|n]; [split; discriminate|]). lia.
Qed.

Lemma Sample_hmac_roundtrip m key keyLength :
  Sample.verifyMeshHmac m (Sample.createMeshHmac m key keyLength) key keyLength
  = true.
Proof. unfold Sample.verifyMeshHmac. now apply equals_eq. Qed.

Lemma Sample_hmac_length m key keyLength :
  len (Sample.createMeshHmac m key keyLength) = 2 * Sample.SHA256_NATURAL_LENGTH.
Proof.
  unfold len, Sample.createMeshHmac. now rewrite length_map, length_seq.
Qed.

Lemma Sample_hmac_plain m key keyLength :
  ~ In ","%char (Sample.createMeshHmac m key keyLength)
  /\ ~ In "}"%char (Sample.createMeshHmac m key keyLength).
Proof.
  unfold Sample.createMeshHmac.
  split; intros H; apply in_map_iff in H as (i & Hi & _);
    match type of Hi with
    | Sample.hexDigit (Z.to_nat (?x mod 16)) = _ =>
        pose proof (Z.mod_pos_bound x 16 ltac:(lia));
        destruct (hexDigit_plain (Z.to_nat (x mod 16)) ltac:(lia)) as [H1 H2]
    end; congruence.
Qed.

Lemma createEncryptionRequestHmacMessage_verifies_witness :
  verifyEncryptionRequestHmac Sample.macToString Sample.verifyMeshHmac
    Sample.SHA256_NATURAL_LENGTH
    (createEncryptionRequestHmacMessage Sample.macToString Sample.createMeshHmac
       Sample.temporaryEncryptionRequestHeader Sample.staMac Sample.apMac
       (wire "AddTEC:") (wire "1F2,3}") sampleKey 3 5000)
    Sample.staMac Sample.apMac sampleKey 3
  = true.
Proof.
  apply (createEncryptionRequestHmacMessage_verifies
           Sample.macToString Sample.createMeshHmac Sample.verifyMeshHmac
           Sample.SHA256_NATURAL_LENGTH Sample.temporaryEncryptionRequestHeader
           Sample.staMac Sample.apMac
           Sample_hmac_roundtrip Sample_hmac_length Sample_hmac_plain).
  - apply not_occurs_strstr. reflexivity.
  - apply not_occurs_strstr. reflexivity.
  - now vm_compute.
Defined.

(** The claim as worded fails on a nonce that holds no comma, no closing
    brace and no occurrence of the hmac identifier, but starts with the
    identifier less its opening quote: the quote that opens the nonce
    completes an occurrence of the identifier ahead of the hmac field. With
    primitives that meet the two requirements of the claim, the message the
    composer has just built is rejected. *)
Lemma createEncryptionRequestHmacMessage_nonce_quote :
  (forall m key keyLength,
     Sample.verifyMeshHmac m (Sample.createMeshHmac m key keyLength) key keyLength
     = true)
  /\ (forall m key keyLength,
        len (Sample.createMeshHmac m key keyLength)
        = 2 * Sample.SHA256_NATURAL_LENGTH)
  /\ ~ In ","%char (wire "hmac':abc") /\ ~ In "}"%char (wire "hmac':abc")
  /\ ~ occurs jsonHmac (wire "hmac':abc")
  /\ verifyEncryptionRequestHmac Sample.macToString Sample.verifyMeshHmac
       Sample.SHA256_NATURAL_LENGTH
       (createEncryptionRequestHmacMessage Sample.macToString Sample.createMeshHmac
          Sample.temporaryEncryptionRequestHeader Sample.staMac Sample.apMac
          (wire "AddTEC:") (wire "hmac':abc") sampleKey 3 5000)
       Sample.staMac Sample.apMac sampleKey 3
     = false.
Proof.
  split; [exact Sample_hmac_roundtrip | split; [exact Sample_hmac_length|]].
  split; [apply notIn_forallb; reflexivity|].
  split; [apply notIn_forallb; reflexivity|].
  split; [apply not_occurs_strstr; reflexivity | now vm_compute].
Qed.

(** So does it on a header that holds an hmac field of its own: that field
    is found first and its empty value is taken for the tag. *)
Lemma createEncryptionRequestHmacMessage_header_field :
  verifyEncryptionRequestHmac Sample.macToString Sample.verifyMeshHmac
    Sample.SHA256_NATURAL_LENGTH
    (createEncryptionRequestHmacMessage Sample.macToString Sample.createMeshHmac
       Sample.temporaryEncryptionRequestHeader Sample.staMac Sample.apMac
       (wire "'hmac':'',") (wire "1F2") sampleKey 3 5000)
    Sample.staMac Sample.apMac sampleKey 3
  = false.
Proof. now vm_compute. Qed.

(** Nor do the two requirements on the primitives suffice: a maker whose
    tags have the right length but are made of commas is accepted by its
    verifier, and the composed message is rejected, the tag being cut at its
    first comma. *)
Lemma createEncryptionRequestHmacMessage_comma_tag :
  (forall m key keyLength,
     Sample.verifyCommaHmac m (Sample.commaHmac m key keyLength) key keyLength
     = true)
  /\ (forall m key keyLength,
        len (Sample.commaHmac m key keyLength) = 2 * Sample.SHA256_NATURAL_LENGTH)
  /\ verifyEncryptionRequestHmac Sample.macToString Sample.verifyCommaHmac
       Sample.SHA256_NATURAL_LENGTH
       (createEncryptionRequestHmacMessage Sample.macToString Sample.commaHmac
          Sample.temporaryEncryptionRequestHeader Sample.staMac Sample.apMac
          (wire "AddTEC:") (wire "1F2") sampleKey 3 5000)
       Sample.staMac Sample.apMac sampleKey 3
     = false.
Proof.
  split; [|split]; [reflexivity | reflexivity | now vm_compute].
Qed.

(** * Witnesses of the remaining statements *)

Lemma getEndIndex_spec_witness :
  fits infoMessage /\ 0 <= 35 <= INT32_MAX
  /\ first_char_from ","%char infoMessage 35 39
  /\ getEndIndex infoMessage 35 = 38.
Proof.
  assert (fits infoMessage) as Hfit by now vm_compute.
  assert (0 <= 35 <= INT32_MAX) as Hr by (unfold INT32_MAX; lia).
  assert (first_char_from ","%char infoMessage 35 39) as Hc.
  { change 39 with (35 + Z.of_nat 4).
    apply first_char_from_strchr; [lia | reflexivity]. }
  split; [exact Hfit | split; [exact Hr | split; [exact Hc|]]].
  exact (proj1 (getEndIndex_spec infoMessage 35 Hfit Hr) 39 Hc).
Defined.

(** The claim as worded fails for a delimiter at index 0: the comma is
    found, and one less than its index is negative. *)
Lemma getEndIndex_comma_at_zero :
  first_char_from ","%char [","%char] 0 0
  /\ getEndIndex [","%char] 0 = -1
  /\ ~ (getEndIndex [","%char] 0 < 0 <->
        no_char_from ","%char [","%char] 0 /\ no_char_from "}"%char [","%char] 0).
Proof.
  assert (first_char_from ","%char [","%char] 0 0) as Hc.
  { change 0 with (0 + Z.of_nat 0) at 2.
    apply first_char_from_strchr; [lia | reflexivity]. }
  assert (getEndIndex [","%char] 0 = -1) as He by now vm_compute.
  split; [exact Hc | split; [exact He|]].
  rewrite He. intros [H _]. destruct (H ltac:(lia)) as [Hn _].
  apply (Hn 0); [lia | apply Hc].
Qed.

Lemma createEncryptionRequestIntro_duration_witness :
  createEncryptionRequestIntro Sample.temporaryEncryptionRequestHeader
    Sample.temporaryEncryptionRequestHeader 5000
  = wire "AddTEC:{'arguments':{'duration':'5000',".
Proof.
  exact (proj1 (createEncryptionRequestIntro_duration
                  Sample.temporaryEncryptionRequestHeader
                  Sample.temporaryEncryptionRequestHeader 5000) eq_refl).
Defined.

Lemma verifyEncryptionRequestHmac_spec_witness :
  fits signedMessage
  /\ first_occurrence jsonHmac signedMessage 53
  /\ verifyEncryptionRequestHmac Sample.macToString Sample.verifyMeshHmac
       Sample.SHA256_NATURAL_LENGTH signedMessage
       Sample.staMac Sample.apMac sampleKey 3
     = Sample.verifyMeshHmac
         (Sample.macToString Sample.staMac ++ Sample.macToString Sample.apMac
          ++ firstn 53 signedMessage)
         (substring signedMessage (valueStart jsonHmac 53)
            (getEndIndex signedMessage (valueStart jsonHmac 53)))
         sampleKey 3.
Proof.
  assert (fits signedMessage) as Hfit by now vm_compute.
  assert (first_occurrence jsonHmac signedMessage 53) as Hi
    by (apply strstr_Some; now vm_compute).
  split; [exact Hfit | split; [exact Hi|]].
  destruct (verifyEncryptionRequestHmac_spec Sample.macToString
              Sample.verifyMeshHmac Sample.SHA256_NATURAL_LENGTH signedMessage
              Sample.staMac Sample.apMac sampleKey 3 Hfit) as [_ H].
  destruct (H 53%nat Hi) as (_ & _ & H3). apply H3.
  - intros [_ Hb]. apply (Hb 126); [now vm_compute|].
    split; [lia | reflexivity].
  - now vm_compute.
Defined.

Example verifyEncryptionRequestHmac_tampered :
  verifyEncryptionRequestHmac Sample.macToString Sample.verifyMeshHmac
    Sample.SHA256_NATURAL_LENGTH signedMessage
    Sample.apMac Sample.apMac sampleKey 3
  = false.
Proof. now vm_compute. Qed.

(** * The start locator from any search start *)

Lemma indexOf_ideal s pat from :
  fits s -> pat <> [] -> 0 <= from <= INT32_MAX ->
  indexOf s pat from =
  match strstr (skipn (Z.to_nat from) s) pat with
  | Some k => from + Z.of_nat k
  | None => -1
  end.
Proof.
  intros Hfit Hpat Hfrom. unfold indexOf, INT32_MAX in *.
  rewrite to_uint_small by lia.
  destruct (len s <=? from) eqn:E.
  - apply Z.leb_le in E. rewrite skipn_all2 by (unfold len in E; lia).
    simpl. now destruct pat.
  - apply Z.leb_gt in E.
    destruct (strstr (skipn (Z.to_nat from) s) pat) as [k|] eqn:Ek; [|easy].
    apply strstr_Some, first_occurrence_bound in Ek.
    unfold len in Ek. rewrite length_skipn in Ek.
    pose proof (len_nonneg pat). unfold fits, INT32_MAX, len in *.
    apply to_int32_small. lia.
Qed.

Lemma indexOf_negative_start s pat from :
  fits s -> - 2 ^ 31 <= from < 0 -> indexOf s pat from = -1.
Proof.
  intros Hfit Hfrom. unfold indexOf.
  assert (2 ^ 31 <= to_uint from) as H.
  { unfold to_uint. replace from with (from + 2 ^ 32 + (-1) * 2 ^ 32) by lia.
    rewrite Z.mod_add by lia. rewrite Z.mod_small; lia. }
  unfold fits, INT32_MAX in Hfit.
  destruct (len s <=? to_uint from) eqn:E; [reflexivity|].
  apply Z.leb_gt in E. lia.
Qed.

Lemma occurs_at_skipn pat s from k :
  0 <= from -> pat <> [] ->
  (exists l r, skipn (Z.to_nat from) s = l ++ pat ++ r /\ List.length l = k)
  <-> occurs_at pat s (from + Z.of_nat k).
Proof.
  intros Hfrom Hpat. split.
  - intros (l & r & Hl & Hk).
    assert (Z.to_nat from < List.length s)%nat as Hlt.
    { destruct (Nat.lt_ge_cases (Z.to_nat from) (List.length s)) as [H|H]; [easy|].
      rewrite skipn_all2 in Hl by easy. destruct l, pat; discriminate || easy. }
    exists (firstn (Z.to_nat from) s ++ l), r. split.
    + rewrite <- app_assoc, <- Hl. symmetry. apply firstn_skipn.
    + unfold len. rewrite length_app, length_firstn. lia.
  - intros (l & r & Hs & Hl). unfold len in Hl.
    exists (skipn (Z.to_nat from) l), r. split.
    + rewrite Hs, skipn_app.
      replace (Z.to_nat from - List.length l)%nat with O by lia. reflexivity.
    + rewrite length_skipn. lia.
Qed.

Lemma first_occurrence_from_strstr pat s from k :
  0 <= from -> pat <> [] ->
  strstr (skipn (Z.to_nat from) s) pat = Some k ->
  first_occurrence_from pat s from (from + Z.of_nat k).
Proof.
  intros Hfrom Hpat H. apply strstr_Some in H as [Hex Hmin].
  split; [lia | split].
  - now apply occurs_at_skipn.
  - intros j Hj Hocc.
    replace j with (from + Z.of_nat (Z.to_nat (j - from))) in Hocc by lia.
    apply occurs_at_skipn in Hocc as (l & r & Hl & Hk); try easy.
    apply Hmin in Hl. lia.
Qed.

Lemma no_occurrence_from_strstr pat s from :
  0 <= from -> pat <> [] ->
  strstr (skipn (Z.to_nat from) s) pat = None ->
  no_occurrence_from pat s from.
Proof.
  intros Hfrom Hpat H j Hj Hocc. apply strstr_None in H. apply H.
  replace j with (from + Z.of_nat (Z.to_nat (j - from))) in Hocc by lia.
  apply occurs_at_skipn in Hocc as (l & r & Hl & _); try easy. now exists l, r.
Qed.

Lemma first_occurrence_from_unique pat s from i j :
  first_occurrence_from pat s from i -> first_occurrence_from pat s from j -> i = j.
Proof.
  intros (Hi1 & Hi2 & Hi3) (Hj1 & Hj2 & Hj3).
  destruct (Z.lt_trichotomy i j) as [H|[H|H]]; [|easy|].
  - exfalso. apply (Hj3 i); [lia | easy].
  - exfalso. apply (Hi3 j); [lia | easy].
Qed.

(** X1. The start locator from any [int32_t] search start: a negative start
    finds nothing; from a start [from >= 0] it returns -1 when the identifier
    does not occur at or after [from], and otherwise one past the first such
    occurrence and the character that follows it. A found position lies
    between [from + len id + 1] and [len s + 1]. *)
Theorem getStartIndex_from (s id : String) (from : Z) :
  fits s -> id <> [] -> - 2 ^ 31 <= from <= INT32_MAX ->
  (from < 0 -> getStartIndex s id from = -1)
  /\ (0 <= from -> no_occurrence_from id s from -> getStartIndex s id from = -1)
  /\ (0 <= from -> forall i, first_occurrence_from id s from i ->
      getStartIndex s id from = i + len id + 1)
  /\ (getStartIndex s id from = -1
      \/ from + len id + 1 <= getStartIndex s id from <= len s + 1).
Proof.
  intros Hfit Hid Hfrom. unfold getStartIndex.
  destruct (Z.lt_ge_cases from 0) as [Hneg|Hpos].
  - rewrite indexOf_negative_start by (try easy; lia). simpl.
    split; [easy | split; [easy | split; [intros; lia | now left]]].
  - rewrite indexOf_ideal by (try easy; lia).
    destruct (strstr (skipn (Z.to_nat from) s) id) as [k|] eqn:E.
    + pose proof (first_occurrence_from_strstr _ _ _ _ Hpos Hid E) as Hf.
      apply strstr_Some, first_occurrence_bound in E.
      unfold len in E. rewrite length_skipn in E.
      assert (0 < len id) by (destruct id; [easy | unfold len; simpl; lia]).
      destruct (from + Z.of_nat k <? 0) eqn:E1; [apply Z.ltb_lt in E1; lia|].
      assert (add32 (from + Z.of_nat k) (len id + 1)
              = from + Z.of_nat k + len id + 1) as ->.
      { unfold add32, fits, INT32_MAX, len in *. rewrite to_int32_small; lia. }
      split; [lia | split; [|split]].
      * intros _ Hn. exfalso. apply (Hn (from + Z.of_nat k)); [lia | apply Hf].
      * intros _ i Hi. rewrite (first_occurrence_from_unique _ _ _ _ _ Hi Hf). lia.
      * right. unfold len in *. lia.
    + simpl. split; [lia | split; [easy | split; [|now left]]].
      intros _ i (Hi1 & Hi2 & _). exfalso.
      apply (no_occurrence_from_strstr _ _ _ Hpos Hid E i Hi1 Hi2).
Qed.

(** * The end locator: where its result lies *)

Lemma indexOf_char_past_end s ch from :
  fits s -> - 2 ^ 31 <= from <= INT32_MAX -> from < 0 \/ len s <= from ->
  indexOf_char s ch from = -1.
Proof.
  intros Hfit Hfrom Hout. unfold indexOf_char.
  assert (len s <= to_uint from) as H.
  { destruct (Z.lt_ge_cases from 0) as [Hneg|Hpos].
    - assert (2 ^ 31 <= to_uint from).
      { unfold to_uint. replace from with (from + 2 ^ 32 + (-1) * 2 ^ 32) by lia.
        rewrite Z.mod_add by lia. rewrite Z.mod_small; lia. }
      unfold fits, INT32_MAX in Hfit. lia.
    - unfold INT32_MAX in Hfrom. rewrite to_uint_small by lia. lia. }
  apply Z.leb_le in H. now rewrite H.
Qed.

(** X2. The end locator from any [int32_t] search start: a start that is
    negative or at or past the end of the message gives -2; any other result
    lies between [start - 1] and [len s - 2], and the character just after it
    is the comma or the closing brace that was found. *)
Theorem getEndIndex_bounds (s : String) (start : Z) :
  fits s -> - 2 ^ 31 <= start <= INT32_MAX ->
  (start < 0 \/ len s <= start -> getEndIndex s start = -2)
  /\ (getEndIndex s start = -2
      \/ (0 <= start
          /\ start - 1 <= getEndIndex s start <= len s - 2
          /\ (char_at s (getEndIndex s start + 1) ","%char
              \/ char_at s (getEndIndex s start + 1) "}"%char))).
Proof.
  intros Hfit Hstart. split.
  - intros Hout. unfold getEndIndex.
    rewrite !(indexOf_char_past_end _ _ _ Hfit Hstart Hout). reflexivity.
  - destruct (Z.lt_ge_cases start 0) as [Hneg|Hpos].
    + left. unfold getEndIndex.
      rewrite !(indexOf_char_past_end _ _ _ Hfit Hstart (or_introl Hneg)).
      reflexivity.
    + assert (0 <= start <= INT32_MAX) as Hr by lia.
      rewrite (getEndIndex_ideal _ _ Hfit Hr).
      destruct (strchr _ ","%char) as [k|] eqn:E1.
      * right. apply first_char_from_strchr in E1 as (_ & Hat & _); [|easy].
        pose proof (char_at_lt _ _ _ Hat).
        replace (start + Z.of_nat k - 1 + 1) with (start + Z.of_nat k) by lia.
        split; [easy | split; [lia | now left]].
      * destruct (strchr _ "}"%char) as [k|] eqn:E2; [|now left].
        right. apply first_char_from_strchr in E2 as (_ & Hat & _); [|easy].
        pose proof (char_at_lt _ _ _ Hat).
        replace (start + Z.of_nat k - 1 + 1) with (start + Z.of_nat k) by lia.
        split; [easy | split; [lia | now right]].
Qed.

(** * Reading back what the pair encoder wrote *)

Lemma locate_value_at (id pre v post : String) (d : ascii) (msg : String) :
  msg = pre ++ id ++ dq :: v ++ dq :: d :: post ->
  fits msg -> id <> [] ->
  first_occurrence id msg (List.length pre) ->
  ~ In ","%char v ->
  (d = ","%char \/ (d = "}"%char /\ ~ In "}"%char v /\ ~ In ","%char post)) ->
  getStartIndex msg id 0 = len pre + len id + 1
  /\ getEndIndex msg (getStartIndex msg id 0) = getStartIndex msg id 0 + len v
  /\ substring msg (getStartIndex msg id 0)
       (getEndIndex msg (getStartIndex msg id 0)) = v.
Proof.
  intros Hmsg Hfit Hid Hocc Hv Hd.
  set (s := getStartIndex msg id 0).
  assert (s = len (pre ++ id ++ [dq])) as Hs.
  { unfold s. rewrite (getStartIndex_found _ _ _ Hfit Hid Hocc).
    unfold len. rewrite !length_app. simpl. lia. }
  assert (msg = (pre ++ id ++ [dq]) ++ v ++ dq :: d :: post) as Hmsg'
    by (rewrite Hmsg, <- !app_assoc; reflexivity).
  pose proof (len_nonneg (pre ++ id ++ [dq])) as Hs0.
  assert (len msg = s + len v + 2 + len post) as Hlen.
  { rewrite Hmsg', Hs. unfold len. rewrite !length_app. simpl. lia. }
  pose proof (len_nonneg v). pose proof (len_nonneg post).
  assert (0 <= s <= INT32_MAX) as Hrange by (unfold fits in Hfit; lia).
  assert (skipn (Z.to_nat s) msg = v ++ dq :: d :: post) as Hskip.
  { rewrite Hs, Hmsg'. unfold len. rewrite Nat2Z.id.
    rewrite skipn_app, skipn_all, Nat.sub_diag. reflexivity. }
  assert (getEndIndex msg s = s + len v) as He.
  { rewrite (getEndIndex_ideal _ _ Hfit Hrange), Hskip.
    replace (v ++ dq :: d :: post) with ((v ++ [dq]) ++ d :: post)
      by (now rewrite <- app_assoc).
    assert (~ In ","%char (v ++ [dq])) as Hvq.
    { rewrite in_app_iff. intros [Hin|[Hin|[]]]; [easy | discriminate]. }
    destruct Hd as [->|(-> & Hb & Hp)].
    - rewrite (strchr_found _ _ _ Hvq). unfold len. rewrite length_app. simpl. lia.
    - rewrite (strchr_app _ _ _ Hvq). simpl strchr.
      replace (eqb_ascii "}" ",") with false by reflexivity.
      rewrite (strchr_absent post ","%char); simpl.
      + assert (~ In "}"%char (v ++ [dq])) as Hvb.
        { rewrite in_app_iff. intros [Hin|[Hin|[]]]; [easy | discriminate]. }
        rewrite (strchr_found _ _ _ Hvb). unfold len. rewrite length_app.
        simpl. lia.
      + intros j Hj. apply Hp. eapply nth_error_In. exact Hj. }
  rewrite He. split; [|split; [reflexivity|]].
  - rewrite Hs. unfold len. rewrite !length_app. simpl. lia.
  - rewrite Hmsg'. apply substring_middle; [now rewrite <- Hmsg' | easy | lia].
Qed.

(** X3. A pair written by [createJsonPair] is read back by the two
    locators: when the pair holds the first occurrence of its identifier and
    the value holds no comma, the start locator points at the first character
    of the value, the end locator at the closing quote, and the substring
    between them is the value. What precedes and follows the pair is free. *)
Theorem createJsonPair_read_back (id v pre post : String) :
  fits (pre ++ createJsonPair id v ++ post) -> id <> [] ->
  first_occurrence id (pre ++ createJsonPair id v ++ post) (List.length pre) ->
  ~ In ","%char v ->
  let msg := pre ++ createJsonPair id v ++ post in
  let s := getStartIndex msg id 0 in
  s = len pre + len id + 1
  /\ getEndIndex msg s = s + len v
  /\ substring msg s (getEndIndex msg s) = v.
Proof.
  intros Hfit Hid Hocc Hv msg s.
  assert (msg = pre ++ id ++ dq :: v ++ dq :: ","%char :: post) as Hmsg.
  { unfold msg, createJsonPair.
    repeat (rewrite <- app_assoc || (progress simpl)). reflexivity. }
  apply (locate_value_at id pre v post ","%char msg Hmsg Hfit Hid Hocc Hv).
  now left.
Qed.

(** X4. A pair written by [createJsonEndPair] is read back by the two
    locators: when the pair holds the first occurrence of its identifier, the
    value holds neither comma nor closing brace and no comma follows the
    pair, the substring between the two locators is the value. *)
Theorem createJsonEndPair_read_back (id v pre post : String) :
  fits (pre ++ createJsonEndPair id v ++ post) -> id <> [] ->
  first_occurrence id (pre ++ createJsonEndPair id v ++ post) (List.length pre) ->
  ~ In ","%char v -> ~ In "}"%char v -> ~ In ","%char post ->
  let msg := pre ++ createJsonEndPair id v ++ post in
  let s := getStartIndex msg id 0 in
  s = len pre + len id + 1
  /\ getEndIndex msg s = s + len v
  /\ substring msg s (getEndIndex msg s) = v.
Proof.
  intros Hfit Hid Hocc Hv Hb Hp msg s.
  assert (msg = pre ++ id ++ dq :: v ++ dq :: "}"%char :: "}"%char :: post) as Hmsg.
  { unfold msg, createJsonEndPair.
    repeat (rewrite <- app_assoc || (progress simpl)). reflexivity. }
  apply (locate_value_at id pre v ("}"%char :: post) "}"%char msg
           Hmsg Hfit Hid Hocc Hv).
  right. split; [easy | split; [easy|]].
  intros [H|H]; [discriminate | now apply Hp].
Qed.

(** * What a text getter has read *)

Lemma strchr_Some_split l ch : forall k,
  strchr l ch = Some k ->
  exists a post, l = a ++ ch :: post /\ List.length a = k /\ ~ In ch a.
Proof.
  induction l as [|c l IH]; intros k; simpl; [easy|].
  destruct (eqb_ascii c ch) eqn:E.
  - intros [= <-]. apply eqb_ascii_eq in E. subst. now exists [], l.
  - destruct (strchr l ch) as [k'|]; simpl; [|easy]. intros [= <-].
    destruct (IH k' eq_refl) as (a & post & -> & Hk & Hn).
    exists (c :: a), post. split; [easy | split; [simpl; lia|]].
    intros [H|H]; [|easy]. apply eqb_ascii_neq in E. congruence.
Qed.

Lemma strchr_None_notIn l ch : strchr l ch = None -> ~ In ch l.
Proof.
  intros H Hin. apply In_nth_error in Hin as [j Hj].
  now apply (strchr_None _ _ H j).
Qed.

Lemma firstn_app_exact {A : Type} (a b : list A) :
  firstn (List.length a) (a ++ b) = a.
Proof. rewrite firstn_app, firstn_all, Nat.sub_diag. simpl. apply app_nil_r. Qed.

Lemma located_text_sound (get : String -> String -> bool * String)
  (id msg result v : String) :
  (forall result, get msg result =
     let startIndex := getStartIndex msg id 0 in
     if startIndex <? 0 then (false, result)
     else
       let endIndex := getEndIndex msg startIndex in
       if endIndex <? 0 then (false, result)
       else (true, substring msg startIndex endIndex)) ->
  fits msg -> id <> [] ->
  get msg result = (true, v) -> located_text id msg v.
Proof.
  intros Hget Hfit Hid H. rewrite Hget in H. cbv zeta in H.
  destruct (getStartIndex_cases msg id Hfit Hid) as [[_ Hs]|(i & Hi & Hs & Hr)].
  - rewrite Hs in H. discriminate.
  - exists i. split; [exact Hi|].
    fold (valueStart id i) in Hs. rewrite Hs in H, Hr.
    set (s := valueStart id i) in *.
    destruct (s <? 0) eqn:E; [discriminate|].
    destruct (getEndIndex msg s <? 0) eqn:E1; [discriminate|].
    apply Z.ltb_ge in E1. injection H as H.
    assert (0 <= s <= INT32_MAX) as Hrange by lia.
    pose proof (getEndIndex_range msg s Hfit Hrange) as Hb.
    rewrite (getEndIndex_ideal _ _ Hfit Hrange) in H, E1, Hb.
    assert (forall (a : list ascii) d post k,
              skipn (Z.to_nat s) msg = a ++ d :: post -> List.length a = S k ->
              substring msg s (s + Z.of_nat (S k) - 1) = removelast a) as Hsub.
    { intros a d post k Hsk Hk.
      pose proof (f_equal (@List.length ascii) Hsk) as Hl.
      rewrite length_skipn, length_app in Hl. simpl in Hl.
      rewrite substring_ideal by (try easy; unfold len; lia). rewrite Hsk.
      replace (Z.to_nat (s + Z.of_nat (S k) - 1 - s)) with k by lia.
      rewrite (app_removelast_last d (l := a)) at 1
        by (intros ->; discriminate).
      rewrite <- app_assoc.
      replace k with (List.length (removelast a)).
      - apply firstn_app_exact.
      - destruct a as [|x a]; [discriminate|].
        pose proof (app_removelast_last d (l := x :: a) ltac:(easy)) as Ha.
        apply (f_equal (@List.length ascii)) in Ha.
        rewrite length_app in Ha. simpl in Ha, Hk. simpl. lia. }
    assert (forall (a : list ascii), a <> [] ->
              a = removelast a ++ [last a ","%char]) as Hlast
      by (intros a Ha; now apply app_removelast_last).
    destruct (strchr (skipn (Z.to_nat s) msg) ","%char) as [k|] eqn:Ec.
    + apply strchr_Some_split in Ec as (a & post & Hsk & Hk & Hn).
      destruct k as [|k].
      * right. destruct a; [|discriminate]. exists ","%char, post.
        split; [exact Hsk | now left].
      * left. exists (last a ","%char), ","%char, post.
        rewrite (Hsub a ","%char post k Hsk Hk) in H. subst v.
        assert (a <> []) as Ha by (intros ->; discriminate).
        rewrite <- (Hlast a Ha).
        split; [|split; [exact Hn | now left]].
        rewrite Hsk. rewrite (Hlast a Ha) at 1. now rewrite <- app_assoc.
    + apply strchr_None_notIn in Ec.
      destruct (strchr (skipn (Z.to_nat s) msg) "}"%char) as [k|] eqn:Eb;
        [|lia].
      apply strchr_Some_split in Eb as (a & post & Hsk & Hk & Hn).
      rewrite Hsk in Ec.
      assert (~ In ","%char a) as Hca
        by (intros Hin; apply Ec, in_or_app; now left).
      assert (~ In ","%char post) as Hcp
        by (intros Hin; apply Ec, in_or_app; right; now right).
      destruct k as [|k].
      * right. destruct a; [|discriminate]. exists "}"%char, post.
        split; [exact Hsk | right; now split].
      * left. exists (last a ","%char), "}"%char, post.
        rewrite (Hsub a "}"%char post k Hsk Hk) in H. subst v.
        assert (a <> []) as Ha by (intros ->; discriminate).
        rewrite <- (Hlast a Ha).
        split; [|split; [exact Hca | right; now repeat split]].
        rewrite Hsk. rewrite (Hlast a Ha) at 1. now rewrite <- app_assoc.
Qed.

(** X5. What [getPassword], [getNonce] and [getHmac] return on success is
    read from the first occurrence of their identifier: the text from the
    value start up to, and without, the character that precedes the first
    delimiter (the first comma after the value start, or the first closing
    brace when no comma follows). That character is dropped unchecked, and
    the text holds no comma (and no closing brace when the brace ends it).
    The one other way to succeed is a delimiter sitting at the value start
    itself. *)
Theorem text_getters_sound (msg result v : String) :
  fits msg ->
  (getPassword msg result = (true, v) -> located_text jsonPassword msg v)
  /\ (getNonce msg result = (true, v) -> located_text jsonNonce msg v)
  /\ (getHmac msg result = (true, v) -> located_text jsonHmac msg v).
Proof.
  intros Hfit.
  split; [|split]; intros H; eapply located_text_sound; eauto; easy.
Qed.

(** * Reading back a decimal value *)

Lemma leadingDigits_app a r : forall acc,
  forallb isdigit a = true ->
  leadingDigits (a ++ r) acc = leadingDigits r (leadingDigits a acc).
Proof.
  induction a as [|c a IH]; intros acc H; simpl in *; [easy|].
  apply andb_true_iff in H as [Hc Ha]. rewrite Hc. now apply IH.
Qed.

Lemma nzhead_not_D0 u w : Decimal.nzhead u <> Decimal.D0 w.
Proof. induction u; simpl; try easy. Qed.

Lemma to_uint_normal n : Decimal.unorm (N.to_uint n) = N.to_uint n.
Proof.
  rewrite <- (DecimalN.Unsigned.of_to n) at 2.
  symmetry. apply DecimalN.Unsigned.to_of.
Qed.

Lemma plainDecimal_String_of_ulong n c rest :
  isdigit c = false -> eqb_ascii c "x" = false -> eqb_ascii c "X" = false ->
  plainDecimal (String_of_ulong n ++ c :: rest) = true.
Proof.
  intros Hd Hx HX. unfold String_of_ulong.
  pose proof (to_uint_normal (Z.to_N n)) as Hn.
  destruct (N.to_uint (Z.to_N n)) as [|u|u|u|u|u|u|u|u|u|u]; try reflexivity.
  - discriminate.
  - assert (u = Decimal.Nil) as ->.
    { unfold Decimal.unorm in Hn. simpl in Hn.
      destruct (Decimal.nzhead u) eqn:E; try (now injection Hn as <-);
        try discriminate.
      exfalso. now apply (nzhead_not_D0 u u0). }
    simpl. unfold plainDecimal. rewrite Hd, Hx, HX. reflexivity.
Qed.

Lemma strtoul_String_of_ulong n c rest :
  0 <= n <= ULONG_MAX ->
  isdigit c = false -> eqb_ascii c "x" = false -> eqb_ascii c "X" = false ->
  strtoul (String_of_ulong n ++ c :: rest) = n.
Proof.
  intros Hn Hd Hx HX.
  destruct (String_of_ulong_decimal n ltac:(lia)) as [Hdig Hval].
  assert (parseLeadingDigits (String_of_ulong n ++ c :: rest) = n) as Hp.
  { unfold parseLeadingDigits in *. rewrite leadingDigits_app by easy.
    simpl. now rewrite Hd. }
  rewrite strtoul_plainDecimal; [easy | now apply plainDecimal_String_of_ulong|].
  rewrite Hp. lia.
Qed.

Lemma numericField_value id n pre post :
  fits (numericField id n pre post) -> id <> [] ->
  first_occurrence id (numericField id n pre post) (List.length pre) ->
  0 <= n <= ULONG_MAX ->
  strtoul (skipn (Z.to_nat (valueStart id (List.length pre)))
             (numericField id n pre post)) = n.
Proof.
  intros Hfit Hid Hocc Hn.
  replace (skipn _ _) with (String_of_ulong n ++ dq :: post).
  - now apply strtoul_String_of_ulong.
  - unfold numericField, valueStart.
    replace (pre ++ id ++ dq :: String_of_ulong n ++ dq :: post)
      with ((pre ++ id ++ [dq]) ++ String_of_ulong n ++ dq :: post)
      by (now rewrite <- !app_assoc).
    replace (Z.to_nat (Z.of_nat (List.length pre) + len id + 1))
      with (List.length (pre ++ id ++ [dq]))
      by (unfold len; rewrite !length_app; simpl; lia).
    now rewrite skipn_app, skipn_all, Nat.sub_diag.
Qed.

(** X6. [getDuration], [getUnsynchronizedMessageID] and [getDesync] read
    back a decimal value wherever its field stands in the message: when the
    field holds the first occurrence of the identifier and the value is the
    decimal rendering of [n <= 2^32 - 1] closed by a quote, the getter
    returns true with [n] (with [n <> 0] for [getDesync]), whatever follows
    the closing quote. *)
Theorem numeric_getters_read_back (n : Z) (pre post : String) :
  0 <= n <= ULONG_MAX ->
  (forall result,
     fits (numericField jsonDuration n pre post) ->
     first_occurrence jsonDuration (numericField jsonDuration n pre post)
       (List.length pre) ->
     getDuration (numericField jsonDuration n pre post) result = (true, n))
  /\ (forall result,
        fits (numericField jsonUnsynchronizedMessageID n pre post) ->
        first_occurrence jsonUnsynchronizedMessageID
          (numericField jsonUnsynchronizedMessageID n pre post) (List.length pre) ->
        getUnsynchronizedMessageID
          (numericField jsonUnsynchronizedMessageID n pre post) result
        = (true, n))
  /\ (forall result,
        fits (numericField jsonDesync n pre post) ->
        first_occurrence jsonDesync (numericField jsonDesync n pre post)
          (List.length pre) ->
        getDesync (numericField jsonDesync n pre post) result
        = (true, negb (n =? 0))).
Proof.
  intros Hn. split; [|split]; intros result Hfit Hocc.
  - destruct (numeric_rule_holds jsonDuration (fun v => v) getDuration _
                (fun _ => eq_refl) Hfit ltac:(easy) result) as [_ H].
    rewrite (H _ Hocc). now rewrite numericField_value.
  - destruct (numeric_rule_holds jsonUnsynchronizedMessageID (fun v => v)
                getUnsynchronizedMessageID _
                (fun _ => eq_refl) Hfit ltac:(easy) result) as [_ H].
    rewrite (H _ Hocc). now rewrite numericField_value.
  - destruct (numeric_rule_holds jsonDesync (fun v => negb (v =? 0)) getDesync _
                (fun _ => eq_refl) Hfit ltac:(easy) result) as [_ H].
    rewrite (H _ Hocc). now rewrite numericField_value.
Qed.

(** X7. [getMeshMessageCount] reads back a decimal count wherever its field
    stands: for the rendering of [n <= 65535] it returns true with [n]; for
    the rendering of a larger [n <= 2^32 - 1] the assertion fails. *)
Theorem getMeshMessageCount_read_back (n : Z) (pre post : String) (result : Z) :
  0 <= n <= ULONG_MAX ->
  fits (numericField jsonMeshMessageCount n pre post) ->
  first_occurrence jsonMeshMessageCount
    (numericField jsonMeshMessageCount n pre post) (List.length pre) ->
  (n <= 65535 ->
   getMeshMessageCount (numericField jsonMeshMessageCount n pre post) result
   = Returns true n)
  /\ (65535 < n ->
      getMeshMessageCount (numericField jsonMeshMessageCount n pre post) result
      = AssertionFailure).
Proof.
  intros Hn Hfit Hocc.
  destruct (count_rule_holds _ Hfit result) as [_ H].
  specialize (H _ Hocc). cbv zeta in H.
  rewrite numericField_value in H by easy. exact H.
Qed.

(** * Verification on the wire *)

Section VerificationOnTheWire.

Variable macToString : list Byte.byte -> String.
Variable verifyMeshHmac : String -> String -> list Byte.byte -> Z -> bool.
Variable SHA256_NATURAL_LENGTH : Z.

Lemma verifyEncryptionRequestHmac_field (pre tag post : String) (d : ascii)
  (msg : String) (requesterStaMac requesterApMac hashKey : list Byte.byte)
  (hashKeyLength : Z) :
  msg = pre ++ jsonHmac ++ dq :: tag ++ dq :: d :: post ->
  fits msg ->
  first_occurrence jsonHmac msg (List.length pre) ->
  ~ In ","%char tag ->
  (d = ","%char \/ (d = "}"%char /\ ~ In "}"%char tag /\ ~ In ","%char post)) ->
  verifyEncryptionRequestHmac macToString verifyMeshHmac SHA256_NATURAL_LENGTH
    msg requesterStaMac requesterApMac hashKey hashKeyLength
  = (len tag =? 2 * SHA256_NATURAL_LENGTH)
    && verifyMeshHmac
         (macToString requesterStaMac ++ macToString requesterApMac ++ pre)
         tag hashKey hashKeyLength.
Proof.
  intros Hmsg Hfit Hocc Htag Hd.
  assert (jsonHmac <> []) as Hid by easy.
  destruct (locate_value_at jsonHmac pre tag post d msg Hmsg Hfit Hid Hocc Htag Hd)
    as (Hs & He & Hsub).
  pose proof (len_nonneg pre). pose proof (len_nonneg tag).
  unfold verifyEncryptionRequestHmac, getHmac. cbv zeta.
  destruct (getStartIndex msg jsonHmac 0 <? 0) eqn:E;
    [apply Z.ltb_lt in E; unfold len in *; simpl in *; lia|].
  destruct (getEndIndex msg (getStartIndex msg jsonHmac 0) <? 0) eqn:E1;
    [apply Z.ltb_lt in E1; unfold len in *; simpl in *; lia|].
  rewrite Hsub, (indexOf_found _ _ _ Hfit Hid Hocc).
  destruct (Z.of_nat (List.length pre) <? 0) eqn:E2; [apply Z.ltb_lt in E2; lia|].
  do 4 f_equal.
  rewrite Hmsg. change (pre ++ jsonHmac ++ dq :: tag ++ dq :: d :: post)
    with ([] ++ pre ++ jsonHmac ++ dq :: tag ++ dq :: d :: post).
  apply substring_middle; [now rewrite <- Hmsg | reflexivity | reflexivity].
Qed.

(** X8. Verification on the wire: when the hmac pair holds the first
    occurrence of the hmac identifier and the tag holds no comma,
    [verifyEncryptionRequestHmac] answers whether the tag has
    [2 * SHA256_NATURAL_LENGTH] characters and the external verifier accepts
    it over the two address strings followed by the text before the pair.
    After a pair written by [createJsonPair] nothing of what follows enters
    the answer; after one written by [createJsonEndPair] the same holds for a
    tag without closing brace followed by text without comma. *)
Theorem verifyEncryptionRequestHmac_wire (pre tag post : String)
  (requesterStaMac requesterApMac hashKey : list Byte.byte) (hashKeyLength : Z) :
  ~ In ","%char tag ->
  (fits (pre ++ createJsonPair jsonHmac tag ++ post) ->
   first_occurrence jsonHmac (pre ++ createJsonPair jsonHmac tag ++ post)
     (List.length pre) ->
   verifyEncryptionRequestHmac macToString verifyMeshHmac SHA256_NATURAL_LENGTH
     (pre ++ createJsonPair jsonHmac tag ++ post)
     requesterStaMac requesterApMac hashKey hashKeyLength
   = (len tag =? 2 * SHA256_NATURAL_LENGTH)
     && verifyMeshHmac
          (macToString requesterStaMac ++ macToString requesterApMac ++ pre)
          tag hashKey hashKeyLength)
  /\ (fits (pre ++ createJsonEndPair jsonHmac tag ++ post) ->
      first_occurrence jsonHmac (pre ++ createJsonEndPair jsonHmac tag ++ post)
        (List.length pre) ->
      ~ In "}"%char tag -> ~ In ","%char post ->
      verifyEncryptionRequestHmac macToString verifyMeshHmac SHA256_NATURAL_LENGTH
        (pre ++ createJsonEndPair jsonHmac tag ++ post)
        requesterStaMac requesterApMac hashKey hashKeyLength
      = (len tag =? 2 * SHA256_NATURAL_LENGTH)
        && verifyMeshHmac
             (macToString requesterStaMac ++ macToString requesterApMac ++ pre)
             tag hashKey hashKeyLength).
Proof.
  intros Htag. split.
  - intros Hfit Hocc.
    apply (verifyEncryptionRequestHmac_field pre tag post ","%char); try easy.
    + unfold createJsonPair.
      repeat (rewrite <- app_assoc || (progress simpl)). reflexivity.
    + now left.
  - intros Hfit Hocc Hb Hp.
    apply (verifyEncryptionRequestHmac_field pre tag ("}"%char :: post) "}"%char);
      try easy.
    + unfold createJsonEndPair.
      repeat (rewrite <- app_assoc || (progress simpl)). reflexivity.
    + right. split; [easy | split; [easy|]].
      intros [H|H]; [discriminate | now apply Hp].
Qed.

End VerificationOnTheWire.

(** * Addresses on the wire *)

Section AddressOnTheWire.

Variable stringToMac : String -> list Byte.byte -> list Byte.byte.

Lemma address_field (id : String)
  (get : String -> list Byte.byte -> bool * list Byte.byte)
  (pre v post : String) (d : ascii) (msg : String) (resultArray : list Byte.byte) :
  (forall resultArray, get msg resultArray =
     let startIndex := getStartIndex msg id 0 in
     if startIndex <? 0 then (false, resultArray)
     else
       let endIndex := getEndIndex msg startIndex in
       if (endIndex <? 0) || negb (sub32 endIndex startIndex =? 12)
       then (false, resultArray)
       else (true, stringToMac (substring msg startIndex endIndex) resultArray)) ->
  msg = pre ++ id ++ dq :: v ++ dq :: d :: post ->
  fits msg -> id <> [] ->
  first_occurrence id msg (List.length pre) ->
  ~ In ","%char v ->
  (d = ","%char \/ (d = "}"%char /\ ~ In "}"%char v /\ ~ In ","%char post)) ->
  (len v = 12 -> get msg resultArray = (true, stringToMac v resultArray))
  /\ (len v <> 12 -> get msg resultArray = (false, resultArray)).
Proof.
  intros Hget Hmsg Hfit Hid Hocc Hv Hd.
  destruct (locate_value_at id pre v post d msg Hmsg Hfit Hid Hocc Hv Hd)
    as (Hs & He & Hsub).
  pose proof (len_nonneg pre). pose proof (len_nonneg v). pose proof (len_nonneg id).
  assert (len msg = len pre + len id + len v + 3 + len post) as Hlen.
  { rewrite Hmsg. unfold len. rewrite !length_app. simpl.
    rewrite !length_app. simpl. lia. }
  pose proof (len_nonneg post).
  rewrite Hget. cbv zeta.
  destruct (getStartIndex msg id 0 <? 0) eqn:E; [apply Z.ltb_lt in E; lia|].
  destruct (getEndIndex msg (getStartIndex msg id 0) <? 0) eqn:E1;
    [apply Z.ltb_lt in E1; lia|].
  rewrite Hsub, He. simpl orb.
  assert (sub32 (getStartIndex msg id 0 + len v) (getStartIndex msg id 0) = len v)
    as ->.
  { unfold sub32, fits, INT32_MAX in *. rewrite to_int32_small; lia. }
  split; intros Hl.
  - apply Z.eqb_eq in Hl. now rewrite Hl.
  - apply Z.eqb_neq in Hl. now rewrite Hl.
Qed.

(** X9. [getPeerStaMac] and [getPeerApMac] on the wire: when the pair holds
    the first occurrence of the identifier and the value holds no comma (nor
    closing brace, when a closing brace ends it), a value of 12 characters is
    converted with a true return and a value of any other length gives false
    with the array untouched. *)
Theorem getPeerMac_field (pre v post : String) (d : ascii)
  (resultArray : list Byte.byte) :
  ~ In ","%char v ->
  (d = ","%char \/ (d = "}"%char /\ ~ In "}"%char v /\ ~ In ","%char post)) ->
  (fits (pre ++ jsonPeerStaMac ++ dq :: v ++ dq :: d :: post) ->
   first_occurrence jsonPeerStaMac
     (pre ++ jsonPeerStaMac ++ dq :: v ++ dq :: d :: post) (List.length pre) ->
   (len v = 12 ->
    getPeerStaMac stringToMac
      (pre ++ jsonPeerStaMac ++ dq :: v ++ dq :: d :: post) resultArray
    = (true, stringToMac v resultArray))
   /\ (len v <> 12 ->
       getPeerStaMac stringToMac
         (pre ++ jsonPeerStaMac ++ dq :: v ++ dq :: d :: post) resultArray
       = (false, resultArray)))
  /\ (fits (pre ++ jsonPeerApMac ++ dq :: v ++ dq :: d :: post) ->
      first_occurrence jsonPeerApMac
        (pre ++ jsonPeerApMac ++ dq :: v ++ dq :: d :: post) (List.length pre) ->
      (len v = 12 ->
       getPeerApMac stringToMac
         (pre ++ jsonPeerApMac ++ dq :: v ++ dq :: d :: post) resultArray
       = (true, stringToMac v resultArray))
      /\ (len v <> 12 ->
          getPeerApMac stringToMac
            (pre ++ jsonPeerApMac ++ dq :: v ++ dq :: d :: post) resultArray
          = (false, resultArray))).
Proof.
  intros Hv Hd. split; intros Hfit Hocc.
  - now apply (address_field jsonPeerStaMac (getPeerStaMac stringToMac)
                 pre v post d).
  - now apply (address_field jsonPeerApMac (getPeerApMac stringToMac)
                 pre v post d).
Qed.

End AddressOnTheWire.

(** * Round trips through the composed messages *)

Lemma not_occurs_no_start pat s :
  pat <> [] -> no_start_in pat s [] -> ~ occurs pat s.
Proof.
  intros Hpat H Hocc. apply strstr_occurs in Hocc as [k Hk].
  pose proof (strstr_skip pat s [] H) as Hs. rewrite app_nil_r in Hs.
  rewrite Hk in Hs. simpl in Hs. now destruct pat.
Qed.

Section ConnectionInfoFields.

Variable uint64ToString : Z -> String.

(** X10. The nonce and the password travel through the connection info
    message: when the header holds neither of the names nonce and password,
    the nonce does not hold the name password, and neither value holds a
    comma, [getNonce] and [getPassword] on the message of
    [createEncryptedConnectionInfo] return true with the nonce and the
    password. Closing braces and quotes in them do no harm. *)
Theorem createEncryptedConnectionInfo_text_round_trip
  (header nonce password : String) (A B : Z) (result : String) :
  ~ occurs nonceName header -> ~ occurs passwordName header ->
  ~ occurs passwordName nonce ->
  ~ In ","%char nonce -> ~ In ","%char password ->
  fits (createEncryptedConnectionInfo uint64ToString header nonce password A B) ->
  getNonce (createEncryptedConnectionInfo uint64ToString header nonce password A B)
    result = (true, nonce)
  /\ getPassword
       (createEncryptedConnectionInfo uint64ToString header nonce password A B)
       result = (true, password).
Proof.
  intros Hh1 Hh2 Hn2 Hcn Hcp Hfit. split.
  - apply (located_value (fun s => s) getNonce jsonNonce
             (header ++ argumentsOpening) nonce
             (createJsonPair jsonPassword password
              ++ createJsonPair jsonOwnSessionKey (uint64ToString B)
              ++ createJsonEndPair jsonPeerSessionKey (uint64ToString A))
             ","%char); try easy.
    + wire_normal. reflexivity.
    + wire_normal.
      skip_named nonceName [dq; ":"%char] Hh1.
      skip_end.
    + now left.
  - apply (located_value (fun s => s) getPassword jsonPassword
             (header ++ argumentsOpening ++ createJsonPair jsonNonce nonce) password
             (createJsonPair jsonOwnSessionKey (uint64ToString B)
              ++ createJsonEndPair jsonPeerSessionKey (uint64ToString A))
             ","%char); try easy.
    + wire_normal. reflexivity.
    + wire_normal.
      skip_named passwordName [dq; ":"%char] Hh2.
      skip_named passwordName [dq; ":"%char] Hn2.
      skip_end.
    + now left.
Qed.

(** A rendered key holds no quote. *)
Hypothesis uint64_no_quote : forall k, ~ In dq (uint64ToString k).

Lemma createEncryptedConnectionInfo_no_hmac header nonce password A B :
  ~ occurs hmacName header -> ~ occurs hmacName nonce ->
  ~ occurs hmacName password ->
  ~ occurs jsonHmac
      (createEncryptedConnectionInfo uint64ToString header nonce password A B).
Proof.
  intros Hh Hn Hp. apply not_occurs_no_start; [easy|].
  pose proof (uint64_no_quote A) as HA. pose proof (uint64_no_quote B) as HB.
  wire_normal.
  skip_named hmacName [dq; ":"%char] Hh.
  skip_named hmacName [dq; ":"%char] Hn.
  skip_named hmacName [dq; ":"%char] Hp.
  skip_plain hmacName [":"%char] HB.
  skip_plain hmacName [":"%char] HA.
  skip_end.
Qed.

(** X11. A connection info message carries no hmac field: when the header,
    the nonce and the password do not hold the name hmac and a rendered key
    holds no quote, [getHmac] on the message of
    [createEncryptedConnectionInfo] returns false with its output untouched,
    and [verifyEncryptionRequestHmac] rejects the message whatever the
    verifier, the addresses and the key. *)
Theorem createEncryptedConnectionInfo_not_authenticated
  (macToString : list Byte.byte -> String)
  (verifyMeshHmac : String -> String -> list Byte.byte -> Z -> bool)
  (SHA256_NATURAL_LENGTH : Z)
  (header nonce password : String) (A B : Z) (result : String)
  (requesterStaMac requesterApMac hashKey : list Byte.byte) (hashKeyLength : Z) :
  ~ occurs hmacName header -> ~ occurs hmacName nonce ->
  ~ occurs hmacName password ->
  fits (createEncryptedConnectionInfo uint64ToString header nonce password A B) ->
  getHmac (createEncryptedConnectionInfo uint64ToString header nonce password A B)
    result = (false, result)
  /\ verifyEncryptionRequestHmac macToString verifyMeshHmac SHA256_NATURAL_LENGTH
       (createEncryptedConnectionInfo uint64ToString header nonce password A B)
       requesterStaMac requesterApMac hashKey hashKeyLength
     = false.
Proof.
  intros Hh Hn Hp Hfit.
  pose proof (createEncryptedConnectionInfo_no_hmac header nonce password A B
                Hh Hn Hp) as Hno.
  assert (forall r,
            getHmac (createEncryptedConnectionInfo uint64ToString header nonce
                       password A B) r = (false, r)) as Hget.
  { intros r. unfold getHmac. now rewrite (getStartIndex_absent _ _ Hno). }
  split; [apply Hget|].
  unfold verifyEncryptionRequestHmac. now rewrite Hget.
Qed.

End ConnectionInfoFields.

Section RequestFields.

Variable temporaryEncryptionRequestHeader : String.

(** X12. The nonce travels through an encryption request: when the header
    does not hold the name nonce and the nonce holds neither comma nor
    closing brace, [getNonce] on
    [createEncryptionRequestIntro] followed by [createEncryptionRequestEnding]
    returns true with the nonce, with or without the duration field. *)
Theorem encryptionRequest_nonce_round_trip
  (header nonce : String) (duration : Z) (result : String) :
  ~ occurs nonceName header ->
  ~ In ","%char nonce -> ~ In "}"%char nonce ->
  fits (createEncryptionRequestIntro temporaryEncryptionRequestHeader header duration
        ++ createEncryptionRequestEnding nonce) ->
  getNonce (createEncryptionRequestIntro temporaryEncryptionRequestHeader header
              duration
            ++ createEncryptionRequestEnding nonce) result
  = (true, nonce).
Proof.
  intros Hh Hc Hb Hfit.
  destruct (String_of_ulong_plain duration) as (Hq & _ & _).
  apply (located_value (fun s => s) getNonce jsonNonce
           (createEncryptionRequestIntro temporaryEncryptionRequestHeader header
              duration)
           nonce ["}"%char] "}"%char); try easy.
  - unfold createEncryptionRequestIntro.
    destruct (equals header temporaryEncryptionRequestHeader); wire_normal.
    + skip_named nonceName [dq; ":"%char] Hh.
      skip_plain nonceName [":"%char] Hq.
      skip_end.
    + skip_named nonceName [dq; ":"%char] Hh.
      skip_end.
  - right. split; [easy | split; [easy|]]. simpl. intuition discriminate.
Qed.

(** X13. The duration travels through a temporary encryption request and
    through no other: with the temporary header, free of the name duration,
    [getDuration] on the intro followed by the ending returns true with the
    duration composed (up to [2^32 - 1]); with any other header, when the
    header and the nonce do not hold the name duration, it returns false with
    its output untouched. *)
Theorem encryptionRequest_duration_round_trip
  (header nonce : String) (duration result : Z) :
  ~ occurs durationName header ->
  fits (createEncryptionRequestIntro temporaryEncryptionRequestHeader header duration
        ++ createEncryptionRequestEnding nonce) ->
  (header = temporaryEncryptionRequestHeader -> 0 <= duration <= ULONG_MAX ->
   getDuration (createEncryptionRequestIntro temporaryEncryptionRequestHeader header
                  duration
                ++ createEncryptionRequestEnding nonce) result
   = (true, duration))
  /\ (header <> temporaryEncryptionRequestHeader -> ~ occurs durationName nonce ->
      getDuration (createEncryptionRequestIntro temporaryEncryptionRequestHeader
                     header duration
                   ++ createEncryptionRequestEnding nonce) result
      = (false, result)).
Proof.
  intros Hh Hfit. unfold createEncryptionRequestIntro in *.
  destruct (equals header temporaryEncryptionRequestHeader) eqn:E.
  - apply equals_eq in E. split; [|easy]. intros _ Hd.
    assert ((header ++ argumentsOpening
             ++ createJsonPair jsonDuration (String_of_ulong duration))
            ++ createEncryptionRequestEnding nonce
            = numericField jsonDuration duration (header ++ argumentsOpening)
                (","%char :: createEncryptionRequestEnding nonce)) as Hmsg.
    { unfold numericField, createJsonPair.
      repeat (rewrite <- app_assoc || (progress simpl)). reflexivity. }
    rewrite Hmsg in *.
    assert (first_occurrence jsonDuration
              (numericField jsonDuration duration (header ++ argumentsOpening)
                 (","%char :: createEncryptionRequestEnding nonce))
              (List.length (header ++ argumentsOpening))) as Hocc.
    { unfold numericField. apply first_occurrence_after. wire_normal.
      skip_named durationName [dq; ":"%char] Hh.
      skip_end. }
    destruct (numeric_rule_holds jsonDuration (fun v => v) getDuration _
                (fun _ => eq_refl) Hfit ltac:(easy) result) as [_ H].
    rewrite (H _ Hocc). now rewrite numericField_value.
  - apply equals_neq in E. split; [easy|]. intros _ Hn.
    unfold getDuration. rewrite getStartIndex_absent; [reflexivity|].
    apply not_occurs_no_start; [easy|].
    unfold createEncryptionRequestEnding. wire_normal.
    skip_named durationName [dq; ":"%char] Hh.
    skip_named durationName [dq; ":"%char] Hn.
    skip_end.
Qed.

End RequestFields.

Section HmacMessageFields.

Variable macToString : list Byte.byte -> String.
Variable createMeshHmac : String -> list Byte.byte -> Z -> String.
Variable temporaryEncryptionRequestHeader : String.
Variable localStaMac localApMac : list Byte.byte.

(** X14. The fields of the authenticated request: when the header does not
    hold the name nonce and the nonce holds no comma, [getNonce] on the
    message of [createEncryptionRequestHmacMessage] returns true with the
    nonce, whatever the tag; when the header and the nonce do not hold the
    name hmac and the tag holds neither comma nor closing brace, [getHmac]
    returns true with the tag that [createMeshHmac] made over the two local
    address strings followed by the intro and the nonce pair. *)
Theorem createEncryptionRequestHmacMessage_fields
  (header nonce : String) (hashKey : list Byte.byte) (hashKeyLength duration : Z)
  (result : String) :
  fits (createEncryptionRequestHmacMessage macToString createMeshHmac
          temporaryEncryptionRequestHeader localStaMac localApMac
          header nonce hashKey hashKeyLength duration) ->
  (~ occurs nonceName header -> ~ In ","%char nonce ->
   getNonce (createEncryptionRequestHmacMessage macToString createMeshHmac
               temporaryEncryptionRequestHeader localStaMac localApMac
               header nonce hashKey hashKeyLength duration) result
   = (true, nonce))
  /\ (let tag :=
        createMeshHmac
          ((macToString localStaMac ++ macToString localApMac)
           ++ createEncryptionRequestIntro temporaryEncryptionRequestHeader
                header duration
           ++ createJsonPair jsonNonce nonce)
          hashKey hashKeyLength in
      ~ occurs hmacName header -> ~ occurs hmacName nonce ->
      ~ In ","%char tag -> ~ In "}"%char tag ->
      getHmac (createEncryptionRequestHmacMessage macToString createMeshHmac
                 temporaryEncryptionRequestHeader localStaMac localApMac
                 header nonce hashKey hashKeyLength duration) result
      = (true, tag)).
Proof.
  intros Hfit. destruct (String_of_ulong_plain duration) as (Hq & _ & _).
  unfold createEncryptionRequestHmacMessage in *. split.
  - intros Hh Hc.
    set (tag := createMeshHmac _ hashKey hashKeyLength) in *.
    apply (located_value (fun s => s) getNonce jsonNonce
             (createEncryptionRequestIntro temporaryEncryptionRequestHeader header
                duration)
             nonce (createJsonEndPair jsonHmac tag) ","%char); try easy.
    + unfold createJsonPair.
      repeat (rewrite <- app_assoc || (progress simpl)). reflexivity.
    + unfold createEncryptionRequestIntro.
      destruct (equals header temporaryEncryptionRequestHeader); wire_normal.
      * skip_named nonceName [dq; ":"%char] Hh.
        skip_plain nonceName [":"%char] Hq.
        skip_end.
      * skip_named nonceName [dq; ":"%char] Hh.
        skip_end.
    + now left.
  - intros Hh Hn Hc Hb.
    set (tag := createMeshHmac _ hashKey hashKeyLength) in *.
    set (main := createEncryptionRequestIntro temporaryEncryptionRequestHeader
                   header duration ++ createJsonPair jsonNonce nonce) in *.
    apply (located_value (fun s => s) getHmac jsonHmac main tag
             ["}"%char] "}"%char); try easy.
    + unfold main, createEncryptionRequestIntro.
      destruct (equals header temporaryEncryptionRequestHeader); wire_normal.
      * skip_named hmacName [dq; ":"%char] Hh.
        skip_plain hmacName [":"%char] Hq.
        skip_named hmacName [dq; ":"%char] Hn.
        skip_end.
      * skip_named hmacName [dq; ":"%char] Hh.
        skip_named hmacName [dq; ":"%char] Hn.
        skip_end.
    + right. split; [easy | split; [easy|]]. simpl. intuition discriminate.
Qed.

End HmacMessageFields.

Section HmacMessageDuration.

Variable macToString : list Byte.byte -> String.
Variable createMeshHmac : String -> list Byte.byte -> Z -> String.
Variable temporaryEncryptionRequestHeader : String.
Variable localStaMac localApMac : list Byte.byte.

(** X15. The duration travels through the authenticated temporary request,
    where its field is followed by the nonce and the tag: with the temporary
    header, free of the name duration, and a duration up to [2^32 - 1],
    [getDuration] on the message of [createEncryptionRequestHmacMessage]
    returns true with the duration, whatever the nonce and the tag. *)
Theorem createEncryptionRequestHmacMessage_duration
  (nonce : String) (hashKey : list Byte.byte) (hashKeyLength duration result : Z) :
  ~ occurs durationName temporaryEncryptionRequestHeader ->
  0 <= duration <= ULONG_MAX ->
  fits (createEncryptionRequestHmacMessage macToString createMeshHmac
          temporaryEncryptionRequestHeader localStaMac localApMac
          temporaryEncryptionRequestHeader nonce hashKey hashKeyLength duration) ->
  getDuration
    (createEncryptionRequestHmacMessage macToString createMeshHmac
       temporaryEncryptionRequestHeader localStaMac localApMac
       temporaryEncryptionRequestHeader nonce hashKey hashKeyLength duration)
    result
  = (true, duration).
Proof.
  intros Hh Hd. unfold createEncryptionRequestHmacMessage,
    createEncryptionRequestIntro.
  assert (equals temporaryEncryptionRequestHeader temporaryEncryptionRequestHeader
          = true) as -> by now apply equals_eq.
  set (tag := createMeshHmac _ hashKey hashKeyLength).
  assert (((temporaryEncryptionRequestHeader ++ argumentsOpening
            ++ createJsonPair jsonDuration (String_of_ulong duration))
           ++ createJsonPair jsonNonce nonce)
          ++ createJsonEndPair jsonHmac tag
          = numericField jsonDuration duration
              (temporaryEncryptionRequestHeader ++ argumentsOpening)
              (","%char :: createJsonPair jsonNonce nonce
               ++ createJsonEndPair jsonHmac tag)) as ->.
  { unfold numericField, createJsonPair.
    repeat (rewrite <- app_assoc || (progress simpl)). reflexivity. }
  intros Hfit.
  assert (first_occurrence jsonDuration
            (numericField jsonDuration duration
               (temporaryEncryptionRequestHeader ++ argumentsOpening)
               (","%char :: createJsonPair jsonNonce nonce
                ++ createJsonEndPair jsonHmac tag))
            (List.length (temporaryEncryptionRequestHeader ++ argumentsOpening)))
    as Hocc.
  { unfold numericField. apply first_occurrence_after. wire_normal.
    skip_named durationName [dq; ":"%char] Hh.
    skip_end. }
  destruct (numeric_rule_holds jsonDuration (fun v => v) getDuration _
              (fun _ => eq_refl) Hfit ltac:(easy) result) as [_ H].
  rewrite (H _ Hocc). now rewrite numericField_value.
Qed.

End HmacMessageDuration.

(** * Witnesses of the further properties *)

Lemma getStartIndex_from_witness :
  fits infoMessage /\ first_occurrence_from jsonNonce infoMessage 5 26
  /\ getStartIndex infoMessage jsonNonce 5 = 35.
Proof.
  assert (fits infoMessage) as Hfit by now vm_compute.
  assert (first_occurrence_from jsonNonce infoMessage 5 26) as Hocc.
  { change 26 with (5 + Z.of_nat 21).
    apply first_occurrence_from_strstr; [lia | easy | reflexivity]. }
  split; [exact Hfit | split; [exact Hocc|]].
  destruct (getStartIndex_from infoMessage jsonNonce 5 Hfit ltac:(easy)
              ltac:(unfold INT32_MAX; lia)) as (_ & _ & H & _).
  exact (H ltac:(lia) 26 Hocc).
Defined.

Lemma getEndIndex_bounds_witness :
  fits infoMessage /\ getEndIndex infoMessage 200 = -2.
Proof.
  assert (fits infoMessage) as Hfit by now vm_compute.
  split; [exact Hfit|].
  apply (proj1 (getEndIndex_bounds infoMessage 200 Hfit
                  ltac:(unfold INT32_MAX; lia))).
  right. now vm_compute.
Defined.

Lemma createJsonPair_read_back_witness :
  substring infoMessage 52 55 = wire "abc".
Proof.
  pose proof (createJsonPair_read_back jsonPassword (wire "abc")
                (wire "EncryptedCI:{'arguments':{'nonce':'1F2',")
                (wire "'ownSK':'3B4','peerSK':'1A2'}}")) as H.
  cbv zeta in H.
  destruct H as (_ & _ & H).
  - now vm_compute.
  - easy.
  - apply strstr_Some. now vm_compute.
  - apply notIn_forallb. reflexivity.
  - exact H.
Defined.

Lemma createJsonEndPair_read_back_witness :
  substring infoMessage 81 84 = wire "1A2".
Proof.
  pose proof (createJsonEndPair_read_back jsonPeerSessionKey (wire "1A2")
                (wire "EncryptedCI:{'arguments':{'nonce':'1F2','password':'abc','ownSK':'3B4',")
                []) as H.
  cbv zeta in H.
  destruct H as (_ & _ & H).
  - now vm_compute.
  - easy.
  - apply strstr_Some. now vm_compute.
  - apply notIn_forallb. reflexivity.
  - apply notIn_forallb. reflexivity.
  - easy.
  - exact H.
Defined.

Lemma text_getters_sound_witness :
  fits infoMessage /\ located_text jsonPassword infoMessage (wire "abc").
Proof.
  assert (fits infoMessage) as Hfit by now vm_compute.
  split; [exact Hfit|].
  apply (proj1 (text_getters_sound infoMessage [] (wire "abc") Hfit)).
  now vm_compute.
Defined.

Lemma numeric_getters_read_back_witness :
  getDuration
    (numericField jsonDuration 5000 (wire "AddTEC:{'arguments':{")
       (wire ",'nonce':'1F2'}}")) 0
  = (true, 5000).
Proof.
  apply (proj1 (numeric_getters_read_back 5000 (wire "AddTEC:{'arguments':{")
                  (wire ",'nonce':'1F2'}}") ltac:(unfold ULONG_MAX; lia))).
  - now vm_compute.
  - apply strstr_Some. now vm_compute.
Defined.

Lemma getMeshMessageCount_read_back_witness :
  getMeshMessageCount
    (numericField jsonMeshMessageCount 65535 (wire "{'arguments':{")
       (wire ",'nonce':'1F2'}}")) 0
  = Returns true 65535.
Proof.
  apply (getMeshMessageCount_read_back 65535 (wire "{'arguments':{")
           (wire ",'nonce':'1F2'}}") 0).
  - unfold ULONG_MAX. lia.
  - now vm_compute.
  - apply strstr_Some. now vm_compute.
  - lia.
Defined.

Lemma verifyEncryptionRequestHmac_wire_witness :
  verifyEncryptionRequestHmac Sample.macToString Sample.verifyMeshHmac
    Sample.SHA256_NATURAL_LENGTH
    (wire "AddEC:{'arguments':{'nonce':'1F2',"
     ++ createJsonPair jsonHmac (wire "AB") ++ wire "'later':'field'}}")
    Sample.staMac Sample.apMac sampleKey 3
  = (len (wire "AB") =? 2 * Sample.SHA256_NATURAL_LENGTH)
    && Sample.verifyMeshHmac
         (Sample.macToString Sample.staMac ++ Sample.macToString Sample.apMac
          ++ wire "AddEC:{'arguments':{'nonce':'1F2',")
         (wire "AB") sampleKey 3.
Proof.
  apply (proj1 (verifyEncryptionRequestHmac_wire Sample.macToString
                  Sample.verifyMeshHmac Sample.SHA256_NATURAL_LENGTH
                  (wire "AddEC:{'arguments':{'nonce':'1F2',") (wire "AB")
                  (wire "'later':'field'}}")
                  Sample.staMac Sample.apMac sampleKey 3
                  ltac:(apply notIn_forallb; reflexivity))).
  - now vm_compute.
  - apply strstr_Some. now vm_compute.
Defined.

Lemma getPeerMac_field_witness :
  getPeerStaMac Sample.stringToMac
    (wire "BasicCI:{'arguments':{" ++ jsonPeerStaMac
     ++ dq :: wire "5CCF7F010203" ++ dq :: ","%char
     :: wire "'peerApMac':'5ECF7F010203'}}") []
  = (true, Sample.stringToMac (wire "5CCF7F010203") []).
Proof.
  destruct (getPeerMac_field Sample.stringToMac (wire "BasicCI:{'arguments':{")
              (wire "5CCF7F010203") (wire "'peerApMac':'5ECF7F010203'}}")
              ","%char []
              ltac:(apply notIn_forallb; reflexivity) (or_introl eq_refl))
    as [H _].
  apply H.
  - now vm_compute.
  - apply strstr_Some. now vm_compute.
  - reflexivity.
Defined.

Lemma createEncryptedConnectionInfo_text_round_trip_witness :
  getNonce
    (createEncryptedConnectionInfo Sample.uint64ToString
       (wire "EncryptedCI:") (wire "1F2}") (wire "a}b'c") 948 418) []
  = (true, wire "1F2}")
  /\ getPassword
       (createEncryptedConnectionInfo Sample.uint64ToString
          (wire "EncryptedCI:") (wire "1F2}") (wire "a}b'c") 948 418) []
     = (true, wire "a}b'c").
Proof.
  apply (createEncryptedConnectionInfo_text_round_trip Sample.uint64ToString).
  - apply not_occurs_strstr. reflexivity.
  - apply not_occurs_strstr. reflexivity.
  - apply not_occurs_strstr. reflexivity.
  - apply notIn_forallb. reflexivity.
  - apply notIn_forallb. reflexivity.
  - now vm_compute.
Defined.

Lemma Sample_uint64_no_quote k : ~ In dq (Sample.uint64ToString k).
Proof. apply Sample_uint64_plain. Qed.

Lemma createEncryptedConnectionInfo_not_authenticated_witness :
  getHmac
    (createEncryptedConnectionInfo Sample.uint64ToString
       (wire "EncryptedCI:") (wire "1F2") (wire "abc") 948 418) (wire "old")
  = (false, wire "old")
  /\ verifyEncryptionRequestHmac Sample.macToString Sample.verifyMeshHmac
       Sample.SHA256_NATURAL_LENGTH
       (createEncryptedConnectionInfo Sample.uint64ToString
          (wire "EncryptedCI:") (wire "1F2") (wire "abc") 948 418)
       Sample.staMac Sample.apMac sampleKey 3
     = false.
Proof.
  apply (createEncryptedConnectionInfo_not_authenticated Sample.uint64ToString
           Sample_uint64_no_quote).
  - apply not_occurs_strstr. reflexivity.
  - apply not_occurs_strstr. reflexivity.
  - apply not_occurs_strstr. reflexivity.
  - now vm_compute.
Defined.

Lemma encryptionRequest_nonce_round_trip_witness :
  getNonce
    (createEncryptionRequestIntro Sample.temporaryEncryptionRequestHeader
       (wire "AddTEC:") 5000
     ++ createEncryptionRequestEnding (wire "1F2")) []
  = (true, wire "1F2").
Proof.
  apply (encryptionRequest_nonce_round_trip
           Sample.temporaryEncryptionRequestHeader).
  - apply not_occurs_strstr. reflexivity.
  - apply notIn_forallb. reflexivity.
  - apply notIn_forallb. reflexivity.
  - now vm_compute.
Defined.

Lemma encryptionRequest_duration_round_trip_witness :
  getDuration
    (createEncryptionRequestIntro Sample.temporaryEncryptionRequestHeader
       (wire "AddTEC:") 5000
     ++ createEncryptionRequestEnding (wire "1F2")) 0
  = (true, 5000)
  /\ getDuration
       (createEncryptionRequestIntro Sample.temporaryEncryptionRequestHeader
          (wire "AddEC:") 5000
        ++ createEncryptionRequestEnding (wire "1F2")) 7
     = (false, 7).
Proof.
  split.
  - apply (proj1 (encryptionRequest_duration_round_trip
                    Sample.temporaryEncryptionRequestHeader
                    (wire "AddTEC:") (wire "1F2") 5000 0
                    ltac:(apply not_occurs_strstr; reflexivity)
                    ltac:(now vm_compute))).
    + reflexivity.
    + unfold ULONG_MAX. lia.
  - apply (proj2 (encryptionRequest_duration_round_trip
                    Sample.temporaryEncryptionRequestHeader
                    (wire "AddEC:") (wire "1F2") 5000 7
                    ltac:(apply not_occurs_strstr; reflexivity)
                    ltac:(now vm_compute))).
    + discriminate.
    + apply not_occurs_strstr. reflexivity.
Defined.

Lemma createEncryptionRequestHmacMessage_fields_witness :
  getNonce
    (createEncryptionRequestHmacMessage Sample.macToString Sample.createMeshHmac
       Sample.temporaryEncryptionRequestHeader Sample.staMac Sample.apMac
       (wire "AddTEC:") (wire "1F2") sampleKey 3 5000) []
  = (true, wire "1F2").
Proof.
  apply (proj1 (createEncryptionRequestHmacMessage_fields Sample.macToString
                  Sample.createMeshHmac Sample.temporaryEncryptionRequestHeader
                  Sample.staMac Sample.apMac
                  (wire "AddTEC:") (wire "1F2") sampleKey 3 5000 []
                  ltac:(now vm_compute))).
  - apply not_occurs_strstr. reflexivity.
  - apply notIn_forallb. reflexivity.
Defined.

Lemma createEncryptionRequestHmacMessage_duration_witness :
  getDuration
    (createEncryptionRequestHmacMessage Sample.macToString Sample.createMeshHmac
       Sample.temporaryEncryptionRequestHeader Sample.staMac Sample.apMac
       Sample.temporaryEncryptionRequestHeader (wire "1F2") sampleKey 3 5000) 0
  = (true, 5000).
Proof.
  apply (createEncryptionRequestHmacMessage_duration Sample.macToString
           Sample.createMeshHmac Sample.temporaryEncryptionRequestHeader
           Sample.staMac Sample.apMac).
  - apply not_occurs_strstr. reflexivity.
  - unfold ULONG_MAX. lia.
  - now vm_compute.
Defined.
